(** * UFO pruning strategy: a shallow embedding of [pruning_strategy.py]

    The development follows the source file top to bottom in its data model
    and bottom to top in its proofs: first the free function
    [query_dist_from_line_points], then the controller class
    [UFOPruningStrategy] with its methods.

    Numbers.  Positions, lengths and spacings are modelled as exact
    rationals ([Q]); [np.inf] is a separate constructor.  This is the
    arithmetic of the code on Python integers and fractions, and on
    floats as long as nothing rounds, overflows or is NaN.  Where
    overflow and NaN decide a property, [query_dist_from_line_points]
    is also given on binary64 values, in module [Binary64].  Euclidean
    norms and the curve fitter are parameters of the controller
    section. *)

From Stdlib Require Import QArith Qabs Qminmax Lqa ZArith List Bool String Lia.
From Stdlib Require Import Permutation.
From Stdlib Require Floats.
Import ListNotations.

Local Open Scope Q_scope.

(** ** Numbers as the source uses them *)

Module Num.

(** A number that may be [np.inf]. *)
Inductive dist : Type :=
| Fin (q : Q)
| Inf.

(** [x < y] on rationals, as a boolean. *)
Definition Qltb (x y : Q) : bool := negb (Qle_bool y x).

(** [a < b] where either side may be [np.inf]. *)
Definition dist_ltb (a b : dist) : bool :=
  match a, b with
  | Fin x, Fin y => Qltb x y
  | Fin _, Inf => true
  | Inf, _ => false
  end.

(** Equality of values: rationals are compared by value, not by
    representation. *)
Definition dist_eq (a b : dist) : Prop :=
  match a, b with
  | Fin x, Fin y => x == y
  | Inf, Inf => True
  | _, _ => False
  end.

Definition dist_nonneg (a : dist) : Prop :=
  match a with
  | Fin x => 0 <= x
  | Inf => True
  end.

(** The smaller of two values; on a tie the first, as Python's [min]. *)
Definition dist_min (a b : dist) : dist :=
  if dist_ltb b a then b else a.

(** Equality of two results of a function that may fall through
    ([None] is Python's [None]). *)
Definition result_eq (a b : option dist) : Prop :=
  match a, b with
  | Some x, Some y => dist_eq x y
  | None, None => True
  | _, _ => False
  end.

End Num.
Export Num.

(** ** Python list idioms *)

Module Py.

(** [xs[-1]] of a non-empty list; [d] stands in for the empty case, which
    every caller excludes beforehand. *)
Definition last_elt (xs : list Q) (d : Q) : Q := last xs d.

(** [zip(xs[:-1], xs[1:])]: the consecutive pairs of [xs]. *)
Definition adjacent {A : Type} (xs : list A) : list (A * A) :=
  combine (removelast xs) (tl xs).

(** Non-decreasing order, decided. *)
Fixpoint sortedb (xs : list Q) : bool :=
  match xs with
  | [] => true
  | x :: rest =>
      match rest with
      | [] => true
      | y :: _ => Qle_bool x y && sortedb rest
      end
  end.

(** Stable insertion of one value: it goes behind the values that are not
    greater. *)
Fixpoint insert_sorted (x : Q) (xs : list Q) : list Q :=
  match xs with
  | [] => [x]
  | y :: rest => if Qltb x y then x :: xs else y :: insert_sorted x rest
  end.

(** [sorted(xs)] / [xs.sort()]: a stable sort into non-decreasing order. *)
Definition py_sorted (xs : list Q) : list Q :=
  fold_left (fun acc x => insert_sorted x acc) xs [].

End Py.
Export Py.

(** ** [query_dist_from_line_points] *)

Module Spacing.

(** The [for l, u in zip(...)] loop of the last branch: the first pair
    with [l <= pt < u] decides; running off the end of the loop returns
    nothing. *)
Fixpoint scan_pairs (pt : Q) (pairs : list (Q * Q)) : option dist :=
  match pairs with
  | [] => None
  | (l, u) :: rest =>
      if Qle_bool l pt && Qltb pt u
      then Some (Fin (Qmin (pt - l) (u - pt)))
      else scan_pairs pt rest
  end.

Definition query_dist_from_line_points (pt : Q) (sorted_array : list Q)
  : option dist :=
  match sorted_array with
  | [] => Some Inf
  | first :: _ =>
      if Qltb pt first then Some (Fin (first - pt))
      else if Qle_bool (last_elt sorted_array first) pt
           then Some (Fin (pt - last_elt sorted_array first))
           else scan_pairs pt (adjacent sorted_array)
  end.

(** *** The specification's vocabulary *)

(** The immediate lower neighbour of [p] in [s]: the greatest element of
    [s] that is not above [p]. *)
Definition lower_neighbor (p : Q) (s : list Q) (l : Q) : Prop :=
  In l s /\ l <= p /\ forall v, In v s -> v <= p -> v <= l.

(** The immediate upper neighbour of [p] in [s]: the least element of [s]
    that is above [p]. *)
Definition upper_neighbor (p : Q) (s : list Q) (u : Q) : Prop :=
  In u s /\ p < u /\ forall v, In v s -> p < v -> u <= v.

(** The distance from [p] to the nearest element of [s], whatever the
    order of [s]; infinite for the empty list. *)
Fixpoint nearest (p : Q) (s : list Q) : dist :=
  match s with
  | [] => Inf
  | v :: rest => dist_min (Fin (Qabs (p - v))) (nearest p rest)
  end.

(** The mirror image of a position across the point [c]. *)
Definition reflect (c v : Q) : Q := 2 * c - v.

End Spacing.
Export Spacing.

(** ** [query_dist_from_line_points] on binary64 values

    The same function on the floats of the machine: comparisons with a
    NaN are false, a subtraction rounds and can overflow to infinity. *)

Module Binary64.
Import Stdlib.Floats.Floats.
Local Open Scope float_scope.

(** Python's [min(a, b)] on two floats. *)
Definition f64_min (a b : float) : float := if b <? a then b else a.

(** The [for l, u in zip(...)] loop on floats. *)
Fixpoint scan_pairs_f64 (pt : float) (pairs : list (float * float))
  : option float :=
  match pairs with
  | [] => None
  | (l, u) :: rest =>
      if (l <=? pt) && (pt <? u)
      then Some (f64_min (pt - l) (u - pt))
      else scan_pairs_f64 pt rest
  end.

Definition query_dist_from_line_points_f64 (pt : float)
           (sorted_array : list float) : option float :=
  match sorted_array with
  | [] => Some infinity
  | first :: _ =>
      if pt <? first then Some (first - pt)
      else if last sorted_array first <=? pt
           then Some (pt - last sorted_array first)
           else scan_pairs_f64 pt (adjacent sorted_array)
  end.


(** No element is a NaN. *)
Definition nan_free (xs : list float) : bool :=
  forallb (fun x => negb (is_nan x)) xs.

End Binary64.

(** ** The plant graph, as the controller reads it *)

Module Tree.

Definition node := Z.
Definition branch_id := Z.

(** A point of space, and the difference of two points. *)
Definition vec : Type := Q * Q * Q.

Definition vsub (a b : vec) : vec :=
  let '(ax, ay, az) := a in
  let '(bx, b_y, bz) := b in
  (ax - bx, ay - b_y, az - bz).

(** A module on an edge: a tag and its payload, such as
    [("Tie", [wall_id; wall_tie_idx])], [("Mark", [wall_id])] or
    [("Flags", [1])]. *)
Definition module_ : Type := string * list Z.

(** The attribute dictionary of an edge; a key may be absent. *)
Record EdgeData : Type := mkEdge {
  pre_modules : option (list module_);
  post_modules : option (list module_)
}.

Record Branch : Type := mkBranch {
  generation : Z;
  nodes : list node;
  points : list vec;
  length : Q
}.

(** What a mutation primitive of the graph may leave behind on it.  The
    controller never reads it back. *)
Inductive annotation : Type :=
| Guide (span : list node) (curve : list vec) (kind : string)
| Stub (span : list node) (excess : Q).

(** [tree.branches] and [tree.graph.edges], both dictionaries, and the
    annotations put on the graph so far. *)
Record LStringGraphDual : Type := mkTree {
  branches : list (branch_id * Branch);
  edges : list ((node * node) * EdgeData);
  annotations : list annotation
}.

Definition branch_lookup (t : LStringGraphDual) (b : branch_id)
  : option Branch :=
  option_map snd (find (fun kv => Z.eqb (fst kv) b) (branches t)).

Definition edge_lookup (t : LStringGraphDual) (e : node * node)
  : option EdgeData :=
  option_map snd
    (find (fun kv => Z.eqb (fst (fst kv)) (fst e) && Z.eqb (snd (fst kv)) (snd e))
          (edges t)).

(** Modelled from the spec: [search_branches] of the plant graph (module
    [graph_utils], which is not among the sources).  The spec gives it as
    "branch id(s) matching a filter predicate over branch attributes";
    the controller only ever filters on [generation = g]. *)
Definition search_branches (t : LStringGraphDual) (g : Z) : list branch_id :=
  map fst (filter (fun kv => Z.eqb (generation (snd kv)) g) (branches t)).

End Tree.

(** ** Exceptions and the controller's monad *)

Inductive exn : Type :=
| TypeError | AttributeError | KeyError | IndexError | ValueError
| AssertionError.

Inductive outcome (A : Type) : Type :=
| Ret (a : A)
| Raise (e : exn).
Arguments Ret {A} a.
Arguments Raise {A} e.

(** The collaborators of the controller that live outside the source file:
    numerics, target geometry, the curve fitter and the two mutation
    primitives of the plant graph.  They are taken as total functions;
    what they compute is left open. *)
Class Collaborators : Type := {
  (** a trellis target *)
  target : Type;
  (** the control parameters of a fitted cubic Bezier curve *)
  bezier : Type;
  (** [np.linalg.norm] of one row *)
  norm : Tree.vec -> Q;
  (** [target.get_point_sequence_dist(pts)], of which the caller keeps the
      second and fourth components: the distance and the target point *)
  get_point_sequence_dist : target -> list Tree.vec -> Q * Tree.vec;
  (** [curves.run_cubic_bezier_strain_opt([p0, p1], tangent, k)], of which
      the caller keeps [params[0]] and [rez.success] *)
  run_cubic_bezier_strain_opt :
    Tree.vec -> Tree.vec -> Tree.vec -> Q -> bezier * bool;
  (** [curves.CubicBezier( *params[0]).eval(np.linspace(0, 1, 10))] *)
  CubicBezier_eval : bezier -> list Tree.vec;
  (** [tree.set_guide_on_nodes(nodes, curve_pts, kind)] *)
  set_guide_on_nodes :
    Tree.LStringGraphDual -> list Tree.node -> list Tree.vec -> string ->
    Tree.LStringGraphDual;
  (** [tree.stub_branch(nodes, excess)] *)
  stub_branch :
    Tree.LStringGraphDual -> list Tree.node -> Q -> Tree.LStringGraphDual
}.

(** ** Pure pieces of [tie_down_trunk] *)

Module Trunk.
Import Tree.

(** [dict(mods).get(key, [])]: of several entries under one key the last
    one wins. *)
Definition dict_get (key : string) (mods : list module_) : list Z :=
  match find (fun m => String.eqb (fst m) key) (rev mods) with
  | Some m => snd m
  | None => []
  end.

(** [1 in dict(edge.get('post_modules', [])).get('Flags', [])] *)
Definition tied_flag (e : EdgeData) : bool :=
  let data := match post_modules e with Some mods => mods | None => [] end in
  existsb (Z.eqb 1) (dict_get "Flags" data).

(** The loop over [enumerate(zip(nodes[:-1], nodes[1:]))]: the last edge
    that carries the flag sets [last_tie_idx]; an edge missing from the
    graph is a [KeyError]. *)
Fixpoint last_tie_scan (t : LStringGraphDual) (pairs : list (node * node))
         (idx last_tie_idx : nat) : outcome nat :=
  match pairs with
  | [] => Ret last_tie_idx
  | e :: rest =>
      match edge_lookup t e with
      | None => Raise KeyError
      | Some data =>
          last_tie_scan t rest (S idx)
            (if tied_flag data then S idx else last_tie_idx)
      end
  end.

(** [np.cumsum] of a flat array. *)
Fixpoint cumsum_from (acc : Q) (xs : list Q) : list Q :=
  match xs with
  | [] => []
  | x :: rest => (acc + x) :: cumsum_from (acc + x) rest
  end.

Definition cumsum (xs : list Q) : list Q :=
  match xs with
  | [] => []
  | x :: rest => x :: cumsum_from x rest
  end.

(** [np.sum] of a flat array. *)
Definition qsum (xs : list Q) : Q := fold_left Qplus xs 0.

(** The index of the first element that satisfies [f]. *)
Fixpoint first_index {A : Type} (f : A -> bool) (xs : list A) : option nat :=
  match xs with
  | [] => None
  | x :: rest =>
      if f x then Some O else option_map S (first_index f rest)
  end.

(** [np.argmax(cumul_lens > curve_len)]: the first index that holds
    [True], and [0] when none does. *)
Definition argmax_gt (cumul_lens : list Q) (curve_len : Q) : Z :=
  match first_index (fun x => Qltb curve_len x) cumul_lens with
  | Some i => Z.of_nat i
  | None => 0%Z
  end.

(** Python's [a or b] on integers. *)
Definition py_or (a b : Z) : Z := if Z.eqb a 0 then b else a.

(** [(np.argmax(cumul_lens > curve_len) or len(nodes) - 2) + 1] *)
Definition tie_down_node_idx (cumul_lens : list Q) (curve_len : Q)
           (nodes : list node) : Z :=
  (py_or (argmax_gt cumul_lens curve_len)
         (Z.of_nat (List.length nodes) - 2) + 1)%Z.

(** [xs[:k]] for an integer [k] of either sign. *)
Definition py_prefix {A : Type} (xs : list A) (k : Z) : list A :=
  if (0 <=? k)%Z then firstn (Z.to_nat k) xs
  else firstn (Z.to_nat (Z.of_nat (List.length xs) + k)) xs.

End Trunk.

(** ** Pure pieces of [assign_leaders] *)

Module Leaders.
Import Tree.

(** What [tied_nodes] holds under a wall id.  The source stores a list
    through [.append] and a bare node id through plain assignment, so the
    value is one or the other. *)
Inductive reg_value : Type :=
| RNode (n : node)
| RList (ns : list node).

(** [tied_nodes], a [defaultdict(list)]; entries in insertion order. *)
Definition registry : Type := list (Z * reg_value).

Definition reg_find (wall_id : Z) (r : registry) : option reg_value :=
  option_map snd (find (fun kv => Z.eqb (fst kv) wall_id) r).

(** [d[k] = v]: an existing key keeps its place, a new one goes last. *)
Fixpoint dict_set {V : Type} (k : Z) (v : V) (d : list (Z * V))
  : list (Z * V) :=
  match d with
  | [] => [(k, v)]
  | (k', v') :: rest =>
      if Z.eqb k' k then (k, v) :: rest else (k', v') :: dict_set k v rest
  end.

(** [tied_nodes[wall_id]] as a read: a missing key is first bound to the
    empty list. *)
Definition reg_getitem (wall_id : Z) (r : registry) : reg_value * registry :=
  match reg_find wall_id r with
  | Some v => (v, r)
  | None => (RList [], dict_set wall_id (RList []) r)
  end.

(** [zip(nodes[-2:1:-1], nodes[-1:2:-1])]: the edges
    [(nodes[i], nodes[i+1])] for [i] from [len(nodes) - 2] down to [2]. *)
Definition tip_to_base_edges (nodes : list node) : list (node * node) :=
  combine (rev (skipn 2 (removelast nodes))) (rev (skipn 3 nodes)).

(** [nodes.index(n)] for a node that occurs in [nodes]. *)
Fixpoint index_of (n : node) (nodes : list node) : nat :=
  match nodes with
  | [] => O
  | m :: rest => if Z.eqb m n then O else S (index_of n rest)
  end.

(** [range(n)] *)
Definition py_range (n : Z) : list Z :=
  map Z.of_nat (seq 0 (Z.to_nat n)).

(** [xs[i]] on a Python list, where a negative index counts from the
    end. *)
Definition py_index {A : Type} (xs : list A) (i : Z) : option A :=
  if (0 <=? i)%Z then nth_error xs (Z.to_nat i)
  else if (0 <=? Z.of_nat (List.length xs) + i)%Z
       then nth_error xs (Z.to_nat (Z.of_nat (List.length xs) + i))
       else None.

(** [self.params.get(key, default)] *)
Definition params_get (params : list (string * Q)) (key : string)
           (default : Q) : Q :=
  match find (fun kv => String.eqb (fst kv) key) params with
  | Some kv => snd kv
  | None => default
  end.

(** The capacity loop over [range(self.wire_walls)] once that range
    exists.  Reading [tied_nodes[wall_id]] binds missing keys; [len] of a
    bare node id is a [TypeError]. *)
Fixpoint capacity_loop (walls : list Z) (leaders_per_wall : Q)
         (tied_nodes : registry) (is_full : bool)
  : outcome (registry * bool) :=
  match walls with
  | [] => Ret (tied_nodes, is_full)
  | wall_id :: rest =>
      let '(trunk_nodes, tied_nodes) := reg_getitem wall_id tied_nodes in
      match trunk_nodes with
      | RNode _ => Raise TypeError
      | RList ns =>
          capacity_loop rest leaders_per_wall tied_nodes
            (if Qltb (inject_Z (Z.of_nat (List.length ns))) leaders_per_wall
             then false else is_full)
      end
  end.

(** The occupied positions of every wall, in insertion order. *)
Definition spacings_table : Type := list (Z * list Q).

(** The loop that fills [wall_spacings] and [all_tied_nodes].  The
    comprehension subscripts the bound method [root_nodes.index], which
    is a [TypeError] on the first registered node; iterating a bare node
    id is a [TypeError] as well.  Only empty lists get through. *)
Fixpoint wall_spacings_loop (items : registry) (acc : spacings_table)
  : outcome (spacings_table * list node) :=
  match items with
  | [] => Ret (acc, [])
  | (wall_id, trunk_nodes) :: rest =>
      match trunk_nodes with
      | RNode _ => Raise TypeError
      | RList (_ :: _) => Raise TypeError
      | RList [] =>
          wall_spacings_loop rest (dict_set wall_id (py_sorted []) acc)
      end
  end.

(** The inner loop of the greedy step over [wall_spacings.items()] for
    one candidate position.  [best] is [(best_spacing, best_wall_id)],
    absent while both are [None].  A spacing of [None] cannot be compared
    and is a [TypeError]. *)
Fixpoint best_wall_loop (leaders_per_wall desired_spacing cum_dist : Q)
         (items : spacings_table) (best : option (dist * Z))
  : outcome (option (dist * Z)) :=
  match items with
  | [] => Ret best
  | (wall_id, spacings) :: rest =>
      if Qle_bool leaders_per_wall (inject_Z (Z.of_nat (List.length spacings)))
      then best_wall_loop leaders_per_wall desired_spacing cum_dist rest best
      else
        match query_dist_from_line_points cum_dist spacings with
        | None => Raise TypeError
        | Some spacing =>
            if dist_ltb spacing (Fin desired_spacing)
            then best_wall_loop leaders_per_wall desired_spacing cum_dist
                   rest best
            else
              let better :=
                match best with
                | None => true
                | Some (best_spacing, _) => dist_ltb spacing best_spacing
                end in
              best_wall_loop leaders_per_wall desired_spacing cum_dist rest
                (if better then Some (spacing, wall_id) else best)
        end
  end.

Definition table_find (wall_id : Z) (t : spacings_table) : option (list Q) :=
  option_map snd (find (fun kv => Z.eqb (fst kv) wall_id) t).

(** [wall_spacings[best_wall_id].append(cum_dist)] followed by
    [wall_spacings[best_wall_id].sort()] *)
Definition record_leader (wall_id : Z) (cum_dist : Q) (t : spacings_table)
  : spacings_table :=
  match table_find wall_id t with
  | Some spacings => dict_set wall_id (py_sorted (spacings ++ [cum_dist])) t
  | None => t
  end.

(** The choice made for the candidate [(node, cum_dist)] in one round of
    the outer greedy loop: [(best_spacing, best_wall_id)], or nothing
    when the candidate is passed over ([continue]) or no wall takes
    it. *)
Definition choose_wall (params : list (string * Q))
           (leaders_per_wall desired_spacing : Q)
           (all_tied_nodes : list node) (candidate : node * Q)
           (wall_spacings : spacings_table) : outcome (option (dist * Z)) :=
  let '(n, cum_dist) := candidate in
  if existsb (Z.eqb n) all_tied_nodes
     || Qltb cum_dist (params_get params "trunk_bare_dist" 5)
  then Ret None
  else best_wall_loop leaders_per_wall desired_spacing cum_dist
         wall_spacings None.

(** One round of the outer greedy loop. *)
Definition greedy_step (params : list (string * Q))
           (leaders_per_wall desired_spacing : Q)
           (all_tied_nodes : list node) (candidate : node * Q)
           (wall_spacings : spacings_table) : outcome spacings_table :=
  match choose_wall params leaders_per_wall desired_spacing all_tied_nodes
          candidate wall_spacings with
  | Raise e => Raise e
  | Ret None => Ret wall_spacings
  | Ret (Some (_, best_wall_id)) =>
      Ret (record_leader best_wall_id (snd candidate) wall_spacings)
  end.

(** The outer greedy loop over [zip(root_nodes[1:], cum_dists)]. *)
Fixpoint greedy_loop (params : list (string * Q))
         (leaders_per_wall desired_spacing : Q)
         (all_tied_nodes : list node) (candidates : list (node * Q))
         (wall_spacings : spacings_table) : outcome spacings_table :=
  match candidates with
  | [] => Ret wall_spacings
  | c :: rest =>
      match greedy_step params leaders_per_wall desired_spacing
              all_tied_nodes c wall_spacings with
      | Raise e => Raise e
      | Ret wall_spacings' =>
          greedy_loop params leaders_per_wall desired_spacing
            all_tied_nodes rest wall_spacings'
      end
  end.

(** What makes a wall eligible for a candidate position: it is in the
    table, below quota, and the candidate keeps the spacing floor to its
    occupied positions. *)
Definition eligible (leaders_per_wall desired_spacing cum_dist : Q)
           (items : spacings_table) (choice : dist * Z) : Prop :=
  exists spacings,
    In (snd choice, spacings) items
    /\ inject_Z (Z.of_nat (List.length spacings)) < leaders_per_wall
    /\ query_dist_from_line_points cum_dist spacings = Some (fst choice)
    /\ dist_ltb (fst choice) (Fin desired_spacing) = false.

(** [np.cumsum(pts[:-1] - pts[1:])]: without an axis the array of
    difference vectors is flattened, coordinate after coordinate, and
    summed up along that flat sequence. *)
Definition flatten (vs : list vec) : list Q :=
  flat_map (fun v => let '(x, y, z) := v in [x; y; z]) vs.

Definition cum_dists_of (pts : list vec) : list Q :=
  Trunk.cumsum
    (flatten (map (fun ab => vsub (fst ab) (snd ab)) (adjacent pts))).

End Leaders.

(** ** The controller *)

Section Controller.
Context `{ext : Collaborators}.
Import Tree Trunk Leaders.

(** [self.wire_walls].  The source uses it both as a number of walls
    ([range(self.wire_walls)]) and as a mapping from a wall id to that
    wall's wires ([self.wire_walls[wall_id]]); a value is one of the
    two. *)
Inductive walls : Type :=
| WallCount (n : Z)
| WallMap (m : list (Z * list target)).

(** The controller object: the constructor's arguments, the bound tree
    ([None] until [set_tree]) and the two state variables. *)
Record UFOPruningStrategy : Type := mkStrategy {
  trunk_targets : list target;
  wire_walls : walls;
  params : list (string * Q);
  tree : option LStringGraphDual;
  next_trunk_target : nat;
  leaders_assigned : bool
}.

(** [UFOPruningStrategy(trunk_targets, wire_walls, **params)] *)
Definition init (trunk_targets : list target) (wire_walls : walls)
           (params : list (string * Q)) : UFOPruningStrategy :=
  mkStrategy trunk_targets wire_walls params None 0 false.

Definition set_tree (t : LStringGraphDual) (self : UFOPruningStrategy)
  : UFOPruningStrategy :=
  mkStrategy (trunk_targets self) (wire_walls self) (params self) (Some t)
             (next_trunk_target self) (leaders_assigned self).

(** A method body: it runs on the controller object, leaves it in some
    state, and either returns or raises.  What was mutated before an
    exception stays mutated. *)
Definition M (A : Type) : Type :=
  UFOPruningStrategy -> outcome A * UFOPruningStrategy.

Definition ret {A : Type} (a : A) : M A := fun self => (Ret a, self).

Definition raise {A : Type} (e : exn) : M A := fun self => (Raise e, self).

Definition bind {A B : Type} (m : M A) (k : A -> M B) : M B :=
  fun self =>
    match m self with
    | (Ret a, self') => k a self'
    | (Raise e, self') => (Raise e, self')
    end.

Definition get_self : M UFOPruningStrategy := fun self => (Ret self, self).

(** A computation that cannot touch the object. *)
Definition lift {A : Type} (o : outcome A) : M A := fun self => (o, self).

(** A lookup that raises [e] when it finds nothing. *)
Definition found {A : Type} (e : exn) (o : option A) : M A :=
  match o with
  | Some a => ret a
  | None => raise e
  end.

Notation "x <- m ;; k" := (bind m (fun x => k))
  (at level 61, m at next level, right associativity).
Notation "m ;;; k" := (bind m (fun _ => k))
  (at level 61, right associativity).

(** [self.tree], on which every method call goes through an attribute
    lookup: [None] has none of the tree's attributes. *)
Definition the_tree : M LStringGraphDual :=
  self <- get_self ;; found AttributeError (tree self).

(** Modelled from the spec: the [assert_unique] flag of
    [search_branches], which "fails loudly if not exactly one match".
    This is [self.tree.search_branches('generation', '=', g,
    assert_unique=True)]. *)
Definition search_unique (g : Z) : M branch_id :=
  t <- the_tree ;;
  match search_branches t g with
  | [b] => ret b
  | _ => raise AssertionError
  end.

(** [self.tree.branches[branch_id]] *)
Definition the_branch (b : branch_id) : M Branch :=
  t <- the_tree ;; found KeyError (branch_lookup t b).

(** A mutation of the tree object through one of its own methods. *)
Definition mutate_tree (f : LStringGraphDual -> LStringGraphDual) : M unit :=
  fun self =>
    match tree self with
    | None => (Raise AttributeError, self)
    | Some t =>
        (Ret tt,
         mkStrategy (trunk_targets self) (wire_walls self) (params self)
                    (Some (f t)) (next_trunk_target self)
                    (leaders_assigned self))
    end.

(** [self.next_trunk_target += 1] *)
Definition advance_trunk_target : M unit :=
  fun self =>
    (Ret tt,
     mkStrategy (trunk_targets self) (wire_walls self) (params self)
                (tree self) (S (next_trunk_target self))
                (leaders_assigned self)).

(** *** [tie_down_trunk] *)

(** Row-wise [np.linalg.norm(pts[:-1] - pts[1:], axis=1)]. *)
Definition offsets_of (pts : list vec) : list Q :=
  map (fun ab => norm (vsub (fst ab) (snd ab))) (adjacent pts).

(** The untied tail of the trunk: the nodes and points from
    [last_tie_idx] on. *)
Definition untied_tail : M (list node * list vec) :=
  root_branch <- search_unique 0 ;;
  br <- the_branch root_branch ;;
  t <- the_tree ;;
  last_tie_idx <- lift (last_tie_scan t (adjacent (nodes br)) 0 0) ;;
  ret (skipn last_tie_idx (nodes br), skipn last_tie_idx (points br)).

(** [cumul_lens[-1]]; an empty array has no last element. *)
Definition tail_length (cumul_lens : list Q) : M Q :=
  found IndexError (nth_error cumul_lens (List.length cumul_lens - 1)).

(** The method itself.  Its three [print] calls write to the console and
    are left out. *)
Definition tie_down_trunk : M unit :=
  self <- get_self ;;
  if negb (Nat.ltb (next_trunk_target self) (List.length (trunk_targets self)))
  then ret tt
  else
    tgt <- found IndexError
             (nth_error (trunk_targets self) (next_trunk_target self)) ;;
    tail <- untied_tail ;;
    let '(nodes, pts) := tail in
    let cumul_lens := cumsum (offsets_of pts) in
    length <- tail_length cumul_lens ;;
    if Qltb 0 length then
      let '(dist_to_target, target_pt) := get_point_sequence_dist tgt pts in
      pts0 <- found IndexError (nth_error pts 0) ;;
      if Qltb (dist_to_target + norm (vsub target_pt pts0)) length then
        n0 <- found IndexError (nth_error nodes 0) ;;
        p <- found IndexError
               (nth_error pts (if Z.eqb n0 0 then 2 else 1)%nat) ;;
        let '(fit, success) :=
          run_cubic_bezier_strain_opt pts0 target_pt (vsub p pts0) 1 in
        if success then
          let curve_pts := CubicBezier_eval fit in
          let curve_len := qsum (offsets_of curve_pts) in
          let idx := tie_down_node_idx cumul_lens curve_len nodes in
          mutate_tree
            (fun t => set_guide_on_nodes t (py_prefix nodes (idx + 1))
                        curve_pts "GlobalGuide") ;;;
          advance_trunk_target
        else ret tt
      else ret tt
    else ret tt.

(** A driver that lets the plant grow between calls: before each call
    the controller is bound to the next snapshot of the tree. *)
Fixpoint tie_down_calls (snapshots : list LStringGraphDual)
         (self : UFOPruningStrategy) : UFOPruningStrategy :=
  match snapshots with
  | [] => self
  | t :: rest => tie_down_calls rest (snd (tie_down_trunk (set_tree t self)))
  end.

(** *** [find_module], [manage_tied_branch] *)

(** The first module of the edge's [pre_modules] with the given tag gives
    its payload; [None] when there is none. *)
Definition find_module (module : string) (edge : node * node)
  : M (option (list Z)) :=
  t <- the_tree ;;
  data <- found KeyError (edge_lookup t edge) ;;
  let pre_mods := match pre_modules data with Some l => l | None => [] end in
  ret (option_map snd (find (fun m => String.eqb (fst m) module) pre_mods)).

Definition manage_tied_branch (nodes : list node) (wall_id wall_tie_idx : Z)
  : M unit :=
  self <- get_self ;;
  match wire_walls self with
  | WallCount _ => raise TypeError
  | WallMap m =>
      wall <- found KeyError
                (option_map snd (find (fun kv => Z.eqb (fst kv) wall_id) m)) ;;
      if Z.eqb wall_tie_idx (Z.of_nat (List.length wall) - 1)
      then mutate_tree
             (fun t => stub_branch t nodes
                         (params_get (params self) "leader_excess_stub" (5 # 2)))
      else
        _ <- found IndexError (nth_error nodes 0) ;;
        _ <- found IndexError (py_index wall (wall_tie_idx + 1)) ;;
        (** [self.graph]: the controller has no such attribute *)
        raise AttributeError
  end.

(** *** [assign_leaders] *)

(** The loop over the edges of one branch, tip first.  A [Tie] payload is
    unpacked into two names, which needs exactly two items. *)
Fixpoint tie_scan (nodes : list node) (edges : list (node * node))
         (tied_nodes : registry) : M registry :=
  match edges with
  | [] => ret tied_nodes
  | edge :: rest =>
      tie_info <- find_module "Tie" edge ;;
      match tie_info with
      | None => tie_scan nodes rest tied_nodes
      | Some [wall_id; wall_tie_idx] =>
          n0 <- found IndexError (nth_error nodes 0) ;;
          let tied_nodes := dict_set wall_id (RNode n0) tied_nodes in
          manage_tied_branch (skipn (index_of (snd edge) nodes) nodes)
                             wall_id wall_tie_idx ;;;
          tie_scan nodes rest tied_nodes
      | Some _ => raise ValueError
      end
  end.

(** The [Mark] check on the first edge of a branch. *)
Definition mark_check (nodes : list node) (tied_nodes : registry)
  : M registry :=
  n0 <- found IndexError (nth_error nodes 0) ;;
  n1 <- found IndexError (nth_error nodes 1) ;;
  mark <- find_module "Mark" (n0, n1) ;;
  match mark with
  | None => ret tied_nodes
  | Some payload =>
      wall_id <- found IndexError (nth_error payload 0) ;;
      let '(v, tied_nodes) := reg_getitem wall_id tied_nodes in
      match v with
      | RList ns => ret (dict_set wall_id (RList (ns ++ [n0])) tied_nodes)
      | RNode _ => raise AttributeError
      end
  end.

(** The loop over the generation-1 branches that builds [tied_nodes]. *)
Fixpoint register_branches (branch_ids : list branch_id)
         (tied_nodes : registry) : M registry :=
  match branch_ids with
  | [] => ret tied_nodes
  | branch_id :: rest =>
      br <- the_branch branch_id ;;
      tied_nodes <- tie_scan (nodes br) (tip_to_base_edges (nodes br))
                      tied_nodes ;;
      tied_nodes <- mark_check (nodes br) tied_nodes ;;
      register_branches rest tied_nodes
  end.

(** The first part of [assign_leaders], up to the capacity check. *)
Definition tied_registry : M registry :=
  t <- the_tree ;;
  register_branches (search_branches t 1) [].

(** The capacity check: [(tied_nodes, is_full)] after the loop. *)
Definition capacity_check (tied_nodes : registry) : M (registry * bool) :=
  self <- get_self ;;
  let leaders_per_wall := params_get (params self) "leaders_per_wall" 5 in
  match wire_walls self with
  | WallMap _ => raise TypeError
  | WallCount n =>
      lift (capacity_loop (py_range n) leaders_per_wall tied_nodes true)
  end.

(** The second part of [assign_leaders]: the search for new leaders.  It
    returns the final [wall_spacings], which the source keeps in a local
    variable and drops. *)
Definition search_new_leaders (tied_nodes : registry) : M spacings_table :=
  self <- get_self ;;
  let leaders_per_wall := params_get (params self) "leaders_per_wall" 5 in
  let desired_spacing := params_get (params self) "leader_spacing" (9 # 10) in
  root_branch_id <- search_unique 0 ;;
  root_branch <- the_branch root_branch_id ;;
  let root_nodes := nodes root_branch in
  let cum_dists := cum_dists_of (points root_branch) in
  tables <- lift (wall_spacings_loop tied_nodes []) ;;
  let '(wall_spacings, all_tied_nodes) := tables in
  lift (greedy_loop (params self) leaders_per_wall desired_spacing
          all_tied_nodes (combine (tl root_nodes) cum_dists) wall_spacings).

Definition assign_leaders : M unit :=
  tied_nodes <- tied_registry ;;
  checked <- capacity_check tied_nodes ;;
  let '(tied_nodes, is_full) := checked in
  if negb is_full
  then search_new_leaders tied_nodes ;;; ret tt
  else ret tt.

(** *** [examine_leaders], [apply_strategy] *)

Definition rub_off_trunk_buds : M unit := ret tt.

Definition examine_leaders : M unit :=
  root_branch <- search_unique 0 ;;
  branch <- the_branch root_branch ;;
  (if Qltb (Tree.length branch) 5 then rub_off_trunk_buds else ret tt) ;;;
  assign_leaders.

Definition apply_strategy : M unit :=
  tie_down_trunk ;;; examine_leaders.

(** The capacity check passes: the registry can be built without an
    exception and the capacity loop leaves [is_full] set.  This needs
    [wire_walls] to be a number and no [Tie] module on a scanned edge. *)
Definition capacity_check_passes (self : UFOPruningStrategy) : Prop :=
  exists tied_nodes tied_nodes' self',
    tied_registry self = (Ret tied_nodes, self') /\
    fst (capacity_check tied_nodes self') = Ret (tied_nodes', true).

(** *** Frame conditions on method bodies *)

(** The body leaves the controller object as it found it. *)
Definition pure_m {A : Type} (m : M A) : Prop :=
  forall self, snd (m self) = self.

(** The body leaves [self.wire_walls] as it found it. *)
Definition keeps_walls {A : Type} (m : M A) : Prop :=
  forall self, wire_walls (snd (m self)) = wire_walls self.

(** The body leaves the controller object as it found it whenever
    [self.wire_walls] is a number. *)
Definition pure_on_count {A : Type} (m : M A) : Prop :=
  forall self n, wire_walls self = WallCount n -> snd (m self) = self.

End Controller.

(** ** Vocabulary for further properties *)

Module Vocabulary.
Import Tree Leaders.

(** The positions of [l] are pairwise at least [d] apart. *)
Fixpoint spaced (d : Q) (l : list Q) : Prop :=
  match l with
  | [] => True
  | x :: rest => (forall v, In v rest -> d <= Qabs (x - v)) /\ spaced d rest
  end.

(** The outer greedy loop passes over a candidate ([continue]) when its
    node is registered already or its position lies on the bare part of
    the trunk. *)
Definition passed_over (params : list (string * Q))
           (all_tied_nodes : list node) (candidate : node * Q) : bool :=
  existsb (Z.eqb (fst candidate)) all_tied_nodes
  || Qltb (snd candidate) (params_get params "trunk_bare_dist" 5).


(** The trunk nodes registered under a wall, a wall without an entry
    having none. *)
Definition registered (wall_id : Z) (r : registry) : option (list node) :=
  match reg_find wall_id r with
  | Some (RList ns) => Some ns
  | Some (RNode _) => None
  | None => Some []
  end.

(** A wall in the capacity check's range is at quota. *)
Definition at_quota (leaders_per_wall : Q) (r : registry) (wall_id : Z)
  : bool :=
  match registered wall_id r with
  | Some ns =>
      negb (Qltb (inject_Z (Z.of_nat (List.length ns))) leaders_per_wall)
  | None => false
  end.

(** A wall holds a bare node id where a list is expected. *)
Definition bare_entry (r : registry) (wall_id : Z) : bool :=
  match reg_find wall_id r with
  | Some (RNode _) => true
  | _ => false
  end.

(** The registry after [tied_nodes[wall_id]] has been read for every wall
    of [walls]: the missing ones are bound to the empty list. *)
Definition bind_missing (walls : list Z) (r : registry) : registry :=
  fold_left (fun acc wall_id => snd (reg_getitem wall_id acc)) walls r.

(** Nothing is registered under an entry. *)
Definition empty_entry (kv : Z * reg_value) : bool :=
  match snd kv with
  | RList [] => true
  | _ => false
  end.

End Vocabulary.

(** ** Concrete collaborators and plants *)

Module Examples.
Import Tree Leaders.

(** Collaborators simple enough to compute with: a target reports a
    fixed distance and target point, the fitter always converges on the
    straight segment between its two end points, and the two mutation
    primitives log what they were asked to do.  The norm is the sum of
    the absolute coordinates, which on the axis-parallel vectors used
    below is the Euclidean norm. *)
Definition straight_line : Collaborators := {|
  target := Q * vec;
  bezier := list vec;
  norm := fun v => let '(x, y, z) := v in Qabs x + Qabs y + Qabs z;
  get_point_sequence_dist := fun tgt _ => tgt;
  run_cubic_bezier_strain_opt := fun p0 p1 _ _ => ([p0; p1], true);
  CubicBezier_eval := fun fit => fit;
  set_guide_on_nodes := fun t span curve kind =>
    mkTree (branches t) (edges t) (annotations t ++ [Guide span curve kind]);
  stub_branch := fun t span excess =>
    mkTree (branches t) (edges t) (annotations t ++ [Stub span excess])
|}.

Definition bare_edge : EdgeData := mkEdge None None.

Definition origin : vec := (0, 0, 0).

(** A trunk of three nodes going straight up, five units per
    internode. *)
Definition trunk3 : Branch :=
  mkBranch 0 [0; 1; 2]%Z [origin; (0, 0, 5); (0, 0, 10)] 10.

Definition young_tree : LStringGraphDual :=
  mkTree [(0%Z, trunk3)]
         [((0, 1)%Z, bare_edge); ((1, 2)%Z, bare_edge)] [].

(** A target three units to the side of the trunk base, lying on the
    trunk's own polyline. *)
Definition near_target : Q * vec := (0, (3, 0, 0)).

Definition young_controller : UFOPruningStrategy (ext := straight_line) :=
  set_tree young_tree (init (ext := straight_line) [near_target] (WallCount 1) []).

(** A trunk whose two nodes sit on the same point. *)
Definition seed_tree : LStringGraphDual :=
  mkTree [(0%Z, mkBranch 0 [0; 1]%Z [origin; origin] 0)]
         [((0, 1)%Z, bare_edge)] [].

Definition seed_controller : UFOPruningStrategy (ext := straight_line) :=
  set_tree seed_tree (init (ext := straight_line) [near_target] (WallCount 1) []).

(** A plant with three leaders: branch 1 is marked for wall 0 on its
    first edge, branch 2 is tied to wall 0 on its last edge, and branch 3
    is tied to wall 1 on its second edge. *)
Definition marked_leader : Branch :=
  mkBranch 1 [1; 10; 11]%Z [(0, 0, 5); (1, 0, 5); (2, 0, 5)] 2.

Definition tied_leader : Branch :=
  mkBranch 1 [2; 20; 21; 22; 23]%Z
           [(0, 0, 10); (1, 0, 10); (2, 0, 10); (3, 0, 10); (4, 0, 10)] 4.

Definition low_tied_leader : Branch :=
  mkBranch 1 [3; 30; 31; 32]%Z
           [(0, 0, 15); (1, 0, 15); (2, 0, 15); (3, 0, 15)] 3.

Definition trunk4 : Branch :=
  mkBranch 0 [0; 1; 2; 3]%Z
           [origin; (0, 0, 5); (0, 0, 10); (0, 0, 15)] 15.

Definition trained_tree : LStringGraphDual :=
  mkTree
    [(0%Z, trunk4); (1%Z, marked_leader); (2%Z, tied_leader);
     (3%Z, low_tied_leader)]
    [((0, 1)%Z, bare_edge); ((1, 2)%Z, bare_edge); ((2, 3)%Z, bare_edge);
     ((1, 10)%Z, mkEdge (Some [("Mark"%string, [0%Z])]) None);
     ((10, 11)%Z, bare_edge);
     ((2, 20)%Z, bare_edge); ((20, 21)%Z, bare_edge);
     ((21, 22)%Z, bare_edge);
     ((22, 23)%Z, mkEdge (Some [("Tie"%string, [0%Z; 0%Z])]) None);
     ((3, 30)%Z, bare_edge);
     ((30, 31)%Z, mkEdge (Some [("Tie"%string, [1%Z; 0%Z])]) None);
     ((31, 32)%Z, bare_edge)]
    [].

(** Two walls of one wire each, given as a mapping. *)
Definition trained_controller : UFOPruningStrategy (ext := straight_line) :=
  set_tree trained_tree
    (init (ext := straight_line) [] (WallMap (ext := straight_line) [(0%Z, [near_target]); (1%Z, [near_target])]) []).

(** A plant whose single wall has its one leader marked, and a
    controller whose only trunk target is already tied. *)
Definition full_tree : LStringGraphDual :=
  mkTree
    [(0%Z, trunk3); (1%Z, marked_leader)]
    [((0, 1)%Z, bare_edge); ((1, 2)%Z, bare_edge);
     ((1, 10)%Z, mkEdge (Some [("Mark"%string, [0%Z])]) None);
     ((10, 11)%Z, bare_edge)]
    [].

Definition full_controller : UFOPruningStrategy (ext := straight_line) :=
  mkStrategy (ext := straight_line) [near_target] (WallCount 1) [("leaders_per_wall"%string, 1)]
             (Some full_tree) 1 false.

(** One wall with leaders at 6 and 9 along the trunk. *)
Definition one_wall : spacings_table := [(0%Z, [6; 9])].

(** The same wall with two more leaders, at 7.6 and 12. *)
Definition packed_wall : list Q := [6; 76 # 10; 9; 12].

End Examples.

(** ** More plants *)

Module MoreExamples.
Import Tree Leaders Examples.

(** The three-node trunk with its last internode tied. *)
Definition tied_trunk_tree : LStringGraphDual :=
  mkTree [(0%Z, trunk3)]
         [((0, 1)%Z, bare_edge);
          ((1, 2)%Z, mkEdge None (Some [("Flags"%string, [1%Z])]))] [].

Definition tied_trunk_controller
  : UFOPruningStrategy (ext := straight_line) :=
  set_tree tied_trunk_tree
    (init (ext := straight_line) [near_target] (WallCount 1) []).

(** A graph without any branch. *)
Definition bare_ground : LStringGraphDual := mkTree [] [] [].

Definition bare_ground_controller
  : UFOPruningStrategy (ext := straight_line) :=
  set_tree bare_ground
    (init (ext := straight_line) [near_target] (WallCount 1) []).


(** A plant whose single wall has its one leader tied, with a controller
    whose only trunk target is tied already; [wire_walls] once as a
    number and once as a mapping. *)
Definition tied_full_tree : LStringGraphDual :=
  mkTree
    [(0%Z, trunk3); (2%Z, tied_leader)]
    [((0, 1)%Z, bare_edge); ((1, 2)%Z, bare_edge);
     ((2, 20)%Z, bare_edge); ((20, 21)%Z, bare_edge);
     ((21, 22)%Z, bare_edge);
     ((22, 23)%Z, mkEdge (Some [("Tie"%string, [0%Z; 0%Z])]) None)]
    [].

Definition tied_full_count : UFOPruningStrategy (ext := straight_line) :=
  mkStrategy (ext := straight_line) [near_target] (WallCount 1)
             [("leaders_per_wall"%string, 1)] (Some tied_full_tree) 1 false.

Definition tied_full_map : UFOPruningStrategy (ext := straight_line) :=
  mkStrategy (ext := straight_line) [near_target]
             (WallMap (ext := straight_line) [(0%Z, [near_target])])
             [("leaders_per_wall"%string, 1)] (Some tied_full_tree) 1 false.

(** The cumulative lengths along the three-node trunk. *)
Definition two_lengths : list Q := [5; 10].

End MoreExamples.

(** * Proofs *)

(** ** Comparisons and order *)

Lemma Qltb_lt (x y : Q) : Qltb x y = true <-> x < y.
Proof.
  unfold Qltb. rewrite negb_true_iff. split; intros H.
  - apply Qnot_le_lt. intros Hle. apply Qle_bool_iff in Hle. congruence.
  - destruct (Qle_bool y x) eqn:E; [|reflexivity].
    apply Qle_bool_iff in E. exfalso. apply (Qlt_not_le _ _ H E).
Qed.

Lemma Qltb_ge (x y : Q) : Qltb x y = false <-> y <= x.
Proof.
  unfold Qltb. rewrite negb_false_iff. apply Qle_bool_iff.
Qed.

Lemma Qle_bool_gt (x y : Q) : Qle_bool x y = false <-> y < x.
Proof.
  rewrite <- Qltb_lt. unfold Qltb. rewrite negb_true_iff. tauto.
Qed.

(** Case analysis on a comparison, leaving the order fact in the context. *)
Ltac cmp_cases x y :=
  let E := fresh "E" in
  destruct (Qltb x y) eqn:E;
  [apply Qltb_lt in E | apply Qltb_ge in E].

Ltac le_cases x y :=
  let E := fresh "E" in
  destruct (Qle_bool x y) eqn:E;
  [apply Qle_bool_iff in E | apply Qle_bool_gt in E].

Lemma sortedb_cons (x : Q) (s : list Q) :
  sortedb (x :: s) = true ->
  sortedb s = true /\ forall v, In v s -> x <= v.
Proof.
  revert x. induction s as [|y s IH]; intros x H.
  - split; [reflexivity | intros v []].
  - change (Qle_bool x y && sortedb (y :: s) = true) in H.
    apply andb_true_iff in H. destruct H as [Hxy Hs].
    apply Qle_bool_iff in Hxy. split; [exact Hs|].
    intros v [<- | Hv]; [exact Hxy|].
    destruct (IH y Hs) as [_ Hy]. specialize (Hy v Hv). lra.
Qed.

Lemma sortedb_cons_intro (x : Q) (s : list Q) :
  sortedb s = true -> (forall v, In v s -> x <= v) -> sortedb (x :: s) = true.
Proof.
  intros Hs Hx. destruct s as [|y s]; [reflexivity|].
  change (Qle_bool x y && sortedb (y :: s) = true).
  apply andb_true_iff. split; [|exact Hs].
  apply Qle_bool_iff. apply Hx. left. reflexivity.
Qed.

Lemma last_default (x d d' : Q) (s : list Q) :
  last (x :: s) d = last (x :: s) d'.
Proof.
  revert x. induction s as [|y s IH]; intros x; [reflexivity|].
  change (last (y :: s) d = last (y :: s) d'). apply IH.
Qed.

Lemma last_in (x : Q) (s : list Q) : In (last (x :: s) x) (x :: s).
Proof.
  revert x. induction s as [|y s IH]; intros x.
  - left. reflexivity.
  - right. change (In (last (y :: s) x) (y :: s)).
    rewrite (last_default y x y s). apply IH.
Qed.

Lemma last_step (x y d : Q) (s : list Q) :
  last (x :: y :: s) d = last (y :: s) y.
Proof.
  change (last (y :: s) d = last (y :: s) y). apply last_default.
Qed.

(** ** The neighbour scan *)

Lemma adjacent_cons2 {A : Type} (x y : A) (s : list A) :
  adjacent (x :: y :: s) = (x, y) :: adjacent (y :: s).
Proof. reflexivity. Qed.

(** On a sorted list whose first element is not above [p] and whose last
    element is, the scan stops at the pair of immediate neighbours. *)
Lemma scan_pairs_neighbors (p : Q) (s : list Q) :
  forall x,
    sortedb (x :: s) = true ->
    x <= p ->
    p < last (x :: s) x ->
    exists l u,
      scan_pairs p (adjacent (x :: s)) = Some (Fin (Qmin (p - l) (u - p)))
      /\ lower_neighbor p (x :: s) l
      /\ upper_neighbor p (x :: s) u.
Proof.
  induction s as [|y s IH]; intros x Hs Hx Hlast.
  - simpl in Hlast. lra.
  - destruct (sortedb_cons _ _ Hs) as [Hs' Hall].
    rewrite adjacent_cons2. cbn [scan_pairs].
    assert (Hle : Qle_bool x p = true) by (apply Qle_bool_iff; exact Hx).
    rewrite Hle. cbn [andb].
    cmp_cases p y.
    + exists x, y. split; [reflexivity|]. split.
      * split; [left; reflexivity|]. split; [exact Hx|].
        intros v [<- | Hv] Hvp; [lra|].
        specialize (Hall v Hv).
        destruct (sortedb_cons _ _ Hs') as [_ Hy].
        destruct Hv as [<- | Hv]; [lra|]. specialize (Hy v Hv). lra.
      * split; [right; left; reflexivity|]. split; [exact E|].
        intros v [<- | Hv] Hpv; [lra|].
        destruct (sortedb_cons _ _ Hs') as [_ Hy].
        destruct Hv as [<- | Hv]; [lra|]. specialize (Hy v Hv). lra.
    + rewrite last_step in Hlast.
      destruct (IH y Hs' E Hlast) as (l & u & Hscan & Hl & Hu).
      exists l, u. split; [exact Hscan|]. split.
      * destruct Hl as (Hin & Hlp & Hmax).
        split; [right; exact Hin|]. split; [exact Hlp|].
        intros v [<- | Hv] Hvp; [|apply Hmax; assumption].
        assert (y <= l) by (apply Hmax; [left; reflexivity | exact E]).
        assert (x <= y) by (apply Hall; left; reflexivity). lra.
      * destruct Hu as (Hin & Hpu & Hmin).
        split; [right; exact Hin|]. split; [exact Hpu|].
        intros v [<- | Hv] Hpv; [lra|apply Hmin; assumption].
Qed.

(** ** The nearest element *)

Lemma dist_min_fin_cases (a : Q) (d : dist) :
  (dist_min (Fin a) d = Fin a /\ forall b, d = Fin b -> a <= b)
  \/ (exists b, d = Fin b /\ dist_min (Fin a) d = Fin b /\ b < a).
Proof.
  destruct d as [b|]; unfold dist_min; cbn [dist_ltb].
  - cmp_cases b a.
    + right. exists b. auto.
    + left. split; [reflexivity|]. intros b' [= <-]. exact E.
  - left. split; [reflexivity|]. intros b [=].
Qed.

(** Over a non-empty list the nearest distance is finite, is a lower bound
    of every gap, and is the gap to some element. *)
Lemma nearest_spec (p x : Q) (s : list Q) :
  exists m,
    nearest p (x :: s) = Fin m
    /\ (forall v, In v (x :: s) -> m <= Qabs (p - v))
    /\ exists v, In v (x :: s) /\ m == Qabs (p - v).
Proof.
  revert x. induction s as [|y s IH]; intros x.
  - exists (Qabs (p - x)). split; [reflexivity|]. split.
    + intros v [<- | []]. lra.
    + exists x. split; [left; reflexivity | reflexivity].
  - destruct (IH y) as (m & Hm & Hlow & v0 & Hv0 & Hmv0).
    change (nearest p (x :: y :: s))
      with (dist_min (Fin (Qabs (p - x))) (nearest p (y :: s))).
    rewrite Hm.
    destruct (dist_min_fin_cases (Qabs (p - x)) (Fin m))
      as [[-> Hle] | (b & Hb & -> & Hlt)].
    + specialize (Hle m eq_refl).
      exists (Qabs (p - x)). split; [reflexivity|]. split.
      * intros v [<- | Hv]; [lra|]. specialize (Hlow v Hv). lra.
      * exists x. split; [left; reflexivity | reflexivity].
    + injection Hb as <-.
      exists m. split; [reflexivity|]. split.
      * intros v [<- | Hv]; [lra|]. apply Hlow. exact Hv.
      * exists v0. split; [right; exact Hv0 | exact Hmv0].
Qed.

(** A lower bound of all gaps that is the gap to some element is the
    nearest distance. *)
Lemma nearest_unique (p d : Q) (s : list Q) (v0 : Q) :
  (forall v, In v s -> d <= Qabs (p - v)) ->
  In v0 s -> Qabs (p - v0) == d ->
  dist_eq (nearest p s) (Fin d).
Proof.
  intros Hlow Hin Heq. destruct s as [|x s]; [destruct Hin|].
  destruct (nearest_spec p x s) as (m & -> & Hm & v1 & Hv1 & Hmv1).
  cbn [dist_eq].
  specialize (Hm v0 Hin). specialize (Hlow v1 Hv1). lra.
Qed.

Lemma Qabs_gap_below (p v : Q) : p <= v -> Qabs (p - v) == v - p.
Proof. intros H. rewrite Qabs_neg by lra. lra. Qed.

Lemma Qabs_gap_above (p v : Q) : v <= p -> Qabs (p - v) == p - v.
Proof. intros H. rewrite Qabs_pos by lra. lra. Qed.

Lemma Qabs_reflect (c p v : Q) :
  Qabs (reflect c p - reflect c v) == Qabs (p - v).
Proof.
  unfold reflect.
  assert (H : 2 * c - p - (2 * c - v) == - (p - v)) by lra.
  rewrite H. apply Qabs_opp.
Qed.

(** The gap to the nearer of the two immediate neighbours is the nearest
    distance. *)
Lemma neighbors_nearest (p l u : Q) (s : list Q) :
  lower_neighbor p s l -> upper_neighbor p s u ->
  dist_eq (nearest p s) (Fin (Qmin (p - l) (u - p))).
Proof.
  intros (Hl & Hlp & Hmax) (Hu & Hpu & Hmin).
  destruct (Q.min_spec (p - l) (u - p)) as [[Hlt Hmn] | [Hle Hmn]].
  - apply nearest_unique with (v0 := l); [|exact Hl|].
    + intros v Hv. rewrite Hmn.
      destruct (Qlt_le_dec p v) as [Hpv | Hvp].
      * rewrite Qabs_gap_below by lra. specialize (Hmin v Hv Hpv). lra.
      * rewrite Qabs_gap_above by lra. specialize (Hmax v Hv Hvp). lra.
    + rewrite Hmn. apply Qabs_gap_above. exact Hlp.
  - apply nearest_unique with (v0 := u); [|exact Hu|].
    + intros v Hv. rewrite Hmn.
      destruct (Qlt_le_dec p v) as [Hpv | Hvp].
      * rewrite Qabs_gap_below by lra. specialize (Hmin v Hv Hpv). lra.
      * rewrite Qabs_gap_above by lra. specialize (Hmax v Hv Hvp). lra.
    + rewrite Hmn. apply Qabs_gap_below. lra.
Qed.

(** ** Sorting *)

Lemma insert_sorted_perm (x : Q) (l : list Q) :
  Permutation (insert_sorted x l) (x :: l).
Proof.
  induction l as [|y l IH]; cbn [insert_sorted]; [reflexivity|].
  destruct (Qltb x y); [reflexivity|].
  rewrite IH. apply perm_swap.
Qed.

Lemma insert_sorted_sorted (x : Q) (l : list Q) :
  sortedb l = true -> sortedb (insert_sorted x l) = true.
Proof.
  induction l as [|y l IH]; intros Hs; [reflexivity|].
  cbn [insert_sorted]. destruct (sortedb_cons _ _ Hs) as [Hl Hy].
  cmp_cases x y.
  - apply sortedb_cons_intro; [exact Hs|].
    intros v [<- | Hv]; [lra|]. specialize (Hy v Hv). lra.
  - apply sortedb_cons_intro; [apply IH; exact Hl|].
    intros v Hv.
    apply (Permutation_in _ (insert_sorted_perm x l)) in Hv.
    destruct Hv as [<- | Hv]; [exact E | apply Hy; exact Hv].
Qed.

Lemma fold_insert_sorted (xs acc : list Q) :
  sortedb acc = true ->
  sortedb (fold_left (fun a x => insert_sorted x a) xs acc) = true.
Proof.
  revert acc. induction xs as [|x xs IH]; intros acc H; [exact H|].
  cbn [fold_left]. apply IH. apply insert_sorted_sorted. exact H.
Qed.

Lemma fold_insert_perm (xs acc : list Q) :
  Permutation (fold_left (fun a x => insert_sorted x a) xs acc) (xs ++ acc).
Proof.
  revert acc. induction xs as [|x xs IH]; intros acc; [reflexivity|].
  cbn [fold_left]. rewrite IH. rewrite insert_sorted_perm.
  symmetry. apply Permutation_middle.
Qed.

Lemma py_sorted_sorted (xs : list Q) : sortedb (py_sorted xs) = true.
Proof. apply fold_insert_sorted. reflexivity. Qed.

Lemma py_sorted_perm (xs : list Q) : Permutation (py_sorted xs) xs.
Proof.
  unfold py_sorted. rewrite fold_insert_perm. rewrite app_nil_r. reflexivity.
Qed.

Lemma py_sorted_length (xs : list Q) :
  List.length (py_sorted xs) = List.length xs.
Proof. apply Permutation_length. apply py_sorted_perm. Qed.

(** ** [query_dist_from_line_points] on sorted input *)

Lemma query_before_first (p x : Q) (s : list Q) :
  p < x ->
  query_dist_from_line_points p (x :: s) = Some (Fin (x - p)).
Proof.
  intros H. unfold query_dist_from_line_points.
  apply Qltb_lt in H. rewrite H. reflexivity.
Qed.

Lemma query_after_last (p x : Q) (s : list Q) :
  x <= p -> last (x :: s) x <= p ->
  query_dist_from_line_points p (x :: s) = Some (Fin (p - last (x :: s) x)).
Proof.
  intros Hx Hl. unfold query_dist_from_line_points, last_elt.
  apply Qltb_ge in Hx. rewrite Hx.
  apply Qle_bool_iff in Hl. rewrite Hl. reflexivity.
Qed.

Lemma query_interior (p x : Q) (s : list Q) :
  x <= p -> p < last (x :: s) x ->
  query_dist_from_line_points p (x :: s) = scan_pairs p (adjacent (x :: s)).
Proof.
  intros Hx Hl. unfold query_dist_from_line_points, last_elt.
  apply Qltb_ge in Hx. rewrite Hx.
  apply Qle_bool_gt in Hl. rewrite Hl. reflexivity.
Qed.

Lemma sorted_first_le_last (x : Q) (s : list Q) :
  sortedb (x :: s) = true -> x <= last (x :: s) x.
Proof.
  intros Hs. destruct (sortedb_cons _ _ Hs) as [_ Hall].
  destruct (last_in x s) as [<- | Hin]; [lra | apply Hall; exact Hin].
Qed.

Lemma sorted_le_last (x v : Q) (s : list Q) :
  sortedb (x :: s) = true -> In v (x :: s) -> v <= last (x :: s) x.
Proof.
  revert x. induction s as [|y s IH]; intros x Hs Hv.
  - destruct Hv as [<- | []]. simpl. lra.
  - destruct (sortedb_cons _ _ Hs) as [Hs' Hall].
    rewrite last_step. destruct Hv as [<- | Hv].
    + assert (x <= y) by (apply Hall; left; reflexivity).
      assert (y <= last (y :: s) y) by (apply sorted_first_le_last; exact Hs').
      lra.
    + apply IH; assumption.
Qed.

(** On a sorted list the function returns the distance to the nearest
    element. *)
Lemma query_nearest (p : Q) (s : list Q) :
  sortedb s = true ->
  exists d,
    query_dist_from_line_points p s = Some d
    /\ dist_eq d (nearest p s)
    /\ dist_nonneg d.
Proof.
  intros Hs. destruct s as [|x s].
  - exists Inf. cbn. auto.
  - destruct (sortedb_cons _ _ Hs) as [Hs' Hall].
    destruct (Qlt_le_dec p x) as [Hpx | Hxp].
    + exists (Fin (x - p)). split; [apply query_before_first; exact Hpx|].
      split; [|cbn [dist_nonneg]; lra].
      destruct (nearest_spec p x s) as (m & Hm & Hlow & v1 & Hv1 & Hmv1).
      rewrite Hm. cbn [dist_eq].
      assert (Hx : m <= Qabs (p - x)) by (apply Hlow; left; reflexivity).
      rewrite Qabs_gap_below in Hx by lra.
      assert (x <= v1) by (destruct Hv1 as [<- | Hv1]; [lra | apply Hall; exact Hv1]).
      rewrite Qabs_gap_below in Hmv1 by lra. lra.
    + destruct (Qlt_le_dec p (last (x :: s) x)) as [Hpl | Hlp].
      * destruct (scan_pairs_neighbors p s x Hs Hxp Hpl)
          as (l & u & Hscan & Hl & Hu).
        exists (Fin (Qmin (p - l) (u - p))).
        split; [rewrite query_interior by assumption; exact Hscan|].
        split.
        -- pose proof (neighbors_nearest p l u (x :: s) Hl Hu) as Hn.
           destruct (nearest p (x :: s)); cbn [dist_eq] in *; [lra | exact Hn].
        -- cbn [dist_nonneg]. destruct Hl as (_ & Hl & _). destruct Hu as (_ & Hu & _).
           destruct (Q.min_spec (p - l) (u - p)) as [[_ ->] | [_ ->]]; lra.
      * exists (Fin (p - last (x :: s) x)).
        split; [apply query_after_last; assumption|].
        split; [|cbn [dist_nonneg]; lra].
        destruct (nearest_spec p x s) as (m & Hm & Hlow & v1 & Hv1 & Hmv1).
        rewrite Hm. cbn [dist_eq].
        assert (Hx : m <= Qabs (p - last (x :: s) x))
          by (apply Hlow; apply last_in).
        rewrite Qabs_gap_above in Hx by lra.
        assert (v1 <= last (x :: s) x) by (apply sorted_le_last; assumption).
        rewrite Qabs_gap_above in Hmv1 by lra. lra.
Qed.



(** C9.  Reflection symmetry: mirroring the position and every element of
    a sorted list across any point [c], and sorting the mirrored list
    again, leaves the result unchanged. *)
Theorem query_dist_from_line_points_reflect (p c : Q) (s : list Q) :
  sortedb s = true ->
  result_eq
    (query_dist_from_line_points (reflect c p)
       (py_sorted (map (reflect c) s)))
    (query_dist_from_line_points p s).
Proof.
  intros Hs.
  destruct (query_nearest p s Hs) as (d & -> & Hd & _).
  destruct (query_nearest (reflect c p) (py_sorted (map (reflect c) s))
              (py_sorted_sorted _)) as (d' & -> & Hd' & _).
  cbn [result_eq].
  assert (Hin : forall w, In w (py_sorted (map (reflect c) s)) <->
                          exists v, In v s /\ w = reflect c v).
  { intros w. split.
    - intros Hw. apply (Permutation_in _ (py_sorted_perm _)) in Hw.
      apply in_map_iff in Hw. destruct Hw as (v & <- & Hv). eauto.
    - intros (v & Hv & ->).
      apply (Permutation_in _ (Permutation_sym (py_sorted_perm _))).
      apply in_map. exact Hv. }
  destruct s as [|x s].
  - cbn in *. destruct d, d'; cbn in *; tauto.
  - destruct (nearest_spec p x s) as (m & Hm & Hlow & v1 & Hv1 & Hmv1).
    rewrite Hm in Hd.
    assert (Hr : dist_eq (nearest (reflect c p)
                            (py_sorted (map (reflect c) (x :: s)))) (Fin m)).
    { apply nearest_unique with (v0 := reflect c v1).
      - intros w Hw. apply Hin in Hw. destruct Hw as (v & Hv & ->).
        rewrite Qabs_reflect. apply Hlow. exact Hv.
      - apply Hin. eauto.
      - rewrite Qabs_reflect. symmetry. exact Hmv1. }
    destruct (nearest (reflect c p) (py_sorted (map (reflect c) (x :: s))));
      [|destruct Hr].
    destruct d as [q0|], d' as [q1|]; cbn [dist_eq] in *; try tauto. lra.
Qed.

(** ** Dictionaries kept as association lists *)

Module DictFacts.
Import Leaders.

Lemma table_find_cons (k k' : Z) (v : list Q) (d : spacings_table) :
  table_find k' ((k, v) :: d)
  = if Z.eqb k k' then Some v else table_find k' d.
Proof.
  unfold table_find. cbn [find fst]. destruct (Z.eqb k k'); reflexivity.
Qed.

Lemma table_find_dict_set (k k' : Z) (v : list Q) (d : spacings_table) :
  table_find k' (dict_set k v d)
  = if Z.eqb k k' then Some v else table_find k' d.
Proof.
  induction d as [|[k1 v1] d IH]; cbn [dict_set].
  - rewrite table_find_cons. reflexivity.
  - destruct (Z.eqb_spec k1 k) as [-> | Hne].
    + rewrite !table_find_cons. destruct (Z.eqb k k'); reflexivity.
    + rewrite !table_find_cons, IH.
      destruct (Z.eqb_spec k1 k') as [-> | Hne'];
        destruct (Z.eqb_spec k k') as [-> | Hne'']; congruence.
Qed.

Lemma keys_dict_set (k : Z) (v l : list Q) (d : spacings_table) :
  table_find k d = Some l -> map fst (dict_set k v d) = map fst d.
Proof.
  induction d as [|[k1 v1] d IH]; intros H; [discriminate|].
  cbn [dict_set]. rewrite table_find_cons in H.
  destruct (Z.eqb_spec k1 k) as [-> | Hne]; [reflexivity|].
  cbn [map fst]. f_equal. apply IH. exact H.
Qed.

Lemma in_table_find (k : Z) (v : list Q) (d : spacings_table) :
  NoDup (map fst d) -> In (k, v) d -> table_find k d = Some v.
Proof.
  induction d as [|[k1 v1] d IH]; intros Hnd Hin; [destruct Hin|].
  rewrite table_find_cons. cbn [map fst] in Hnd.
  apply NoDup_cons_iff in Hnd. destruct Hnd as [Hnotin Hnd].
  destruct Hin as [[= -> ->] | Hin].
  - rewrite Z.eqb_refl. reflexivity.
  - destruct (Z.eqb_spec k1 k) as [-> | Hne]; [|apply IH; assumption].
    exfalso. apply Hnotin. apply in_map_iff. exists (k, v). auto.
Qed.

Lemma keys_record_leader (k : Z) (x : Q) (d : spacings_table) :
  map fst (record_leader k x d) = map fst d.
Proof.
  unfold record_leader. destruct (table_find k d) eqn:E; [|reflexivity].
  eapply keys_dict_set. exact E.
Qed.

Lemma table_find_record_leader (k k' : Z) (x : Q) (d : spacings_table) :
  table_find k' (record_leader k x d)
  = if Z.eqb k k'
    then option_map (fun l => py_sorted (l ++ [x])) (table_find k' d)
    else table_find k' d.
Proof.
  unfold record_leader. destruct (table_find k d) eqn:E.
  - rewrite table_find_dict_set.
    destruct (Z.eqb_spec k k') as [<- | Hne]; [|reflexivity].
    rewrite E. reflexivity.
  - destruct (Z.eqb_spec k k') as [<- | Hne]; [|reflexivity].
    rewrite E. reflexivity.
Qed.

End DictFacts.

(** ** The greedy step *)

Module GreedyFacts.
Import Leaders DictFacts.

Lemma best_wall_loop_eligible (quota desired cum_dist : Q)
      (all : spacings_table) :
  forall items best r,
    incl items all ->
    (forall c, best = Some c -> eligible quota desired cum_dist all c) ->
    best_wall_loop quota desired cum_dist items best = Ret r ->
    forall c, r = Some c -> eligible quota desired cum_dist all c.
Proof.
  induction items as [|[wall_id spacings] items IH];
    intros best r Hincl Hbest Hrun.
  - cbn in Hrun. injection Hrun as <-. exact Hbest.
  - cbn [best_wall_loop] in Hrun.
    assert (Hincl' : incl items all)
      by (intros x Hx; apply Hincl; right; exact Hx).
    le_cases quota (inject_Z (Z.of_nat (List.length spacings))).
    + eapply IH; eassumption.
    + destruct (query_dist_from_line_points cum_dist spacings)
        as [spacing|] eqn:Hq; [|discriminate].
      destruct (dist_ltb spacing (Fin desired)) eqn:Hfloor.
      * eapply IH; eassumption.
      * eapply IH; [exact Hincl' | | exact Hrun].
        intros c Hc.
        assert (Hnew : eligible quota desired cum_dist all
                         (spacing, wall_id)).
        { exists spacings. cbn [fst snd]. repeat split; try assumption.
          apply Hincl. left. reflexivity. }
        destruct best as [[bs bw]|].
        -- destruct (dist_ltb spacing bs).
           ++ injection Hc as <-. exact Hnew.
           ++ apply Hbest. exact Hc.
        -- injection Hc as <-. exact Hnew.
Qed.

(** A wall chosen for a candidate was eligible for it. *)
Lemma choose_wall_eligible (params : list (string * Q)) (quota desired : Q)
      (tied : list Tree.node) (candidate : Tree.node * Q)
      (ws : spacings_table) (choice : dist * Z) :
  choose_wall params quota desired tied candidate ws = Ret (Some choice) ->
  eligible quota desired (snd candidate) ws choice.
Proof.
  destruct candidate as [n cum_dist]. unfold choose_wall. cbn [snd].
  destruct (existsb (Z.eqb n) tied
            || Qltb cum_dist (params_get params "trunk_bare_dist" 5));
    [discriminate|].
  intros Hrun.
  eapply best_wall_loop_eligible;
    [apply incl_refl | | exact Hrun | reflexivity].
  intros c [=].
Qed.

Lemma greedy_step_keys (params : list (string * Q)) (quota desired : Q)
      (tied : list Tree.node) (candidate : Tree.node * Q)
      (ws ws' : spacings_table) :
  greedy_step params quota desired tied candidate ws = Ret ws' ->
  map fst ws' = map fst ws.
Proof.
  unfold greedy_step.
  destruct (choose_wall params quota desired tied candidate ws)
    as [[[sp w]|]|e]; intros [= <-];
    [apply keys_record_leader | reflexivity].
Qed.

Lemma greedy_loop_keys (params : list (string * Q)) (quota desired : Q)
      (tied : list Tree.node) (candidates : list (Tree.node * Q)) :
  forall ws ws',
    greedy_loop params quota desired tied candidates ws = Ret ws' ->
    map fst ws' = map fst ws.
Proof.
  induction candidates as [|c rest IH]; intros ws ws' Hrun.
  - cbn in Hrun. injection Hrun as <-. reflexivity.
  - cbn [greedy_loop] in Hrun.
    destruct (greedy_step params quota desired tied c ws) as [ws1|e] eqn:E;
      [|discriminate].
    rewrite (IH _ _ Hrun). eapply greedy_step_keys. exact E.
Qed.

End GreedyFacts.

Module GreedyClaims.
Import Leaders DictFacts GreedyFacts.

Lemma eligible_table_find (quota desired cum_dist : Q)
      (ws : spacings_table) (choice : dist * Z) :
  NoDup (map fst ws) ->
  eligible quota desired cum_dist ws choice ->
  exists spacings,
    table_find (snd choice) ws = Some spacings
    /\ inject_Z (Z.of_nat (List.length spacings)) < quota
    /\ query_dist_from_line_points cum_dist spacings = Some (fst choice)
    /\ dist_ltb (fst choice) (Fin desired) = false.
Proof.
  intros Hnd (spacings & Hin & Hlen & Hq & Hfloor).
  exists spacings. repeat split; try assumption.
  apply in_table_find; assumption.
Qed.

Lemma greedy_step_lengths (params : list (string * Q)) (quota desired : Q)
      (tied : list Tree.node) (k : Z) (c : Tree.node * Q)
      (ws ws' : spacings_table) :
  NoDup (map fst ws) ->
  quota == inject_Z k ->
  greedy_step params quota desired tied c ws = Ret ws' ->
  forall wid l,
    table_find wid ws' = Some l ->
    exists l1,
      table_find wid ws = Some l1
      /\ (Z.of_nat (List.length l)
          <= Z.max (Z.of_nat (List.length l1)) k)%Z.
Proof.
  intros Hnd Hk Hstep wid l Hl. unfold greedy_step in Hstep.
  destruct (choose_wall params quota desired tied c ws)
    as [[[sp w]|]|e] eqn:Hc; try discriminate.
  - injection Hstep as <-.
    apply choose_wall_eligible in Hc.
    destruct (eligible_table_find _ _ _ _ _ Hnd Hc)
      as (spacings & Hfind & Hlen & _). cbn [snd] in Hfind.
    rewrite table_find_record_leader in Hl.
    destruct (Z.eqb_spec w wid) as [-> | Hne].
    + rewrite Hfind in Hl. cbn in Hl. injection Hl as <-.
      exists spacings. split; [exact Hfind|].
      rewrite py_sorted_length, length_app. cbn [List.length].
      rewrite Hk in Hlen. rewrite <- Zlt_Qlt in Hlen. lia.
    + exists l. split; [exact Hl | lia].
  - injection Hstep as <-. exists l. split; [exact Hl | lia].
Qed.

(** Sorting again after every insertion keeps sorted walls sorted. *)
Lemma greedy_step_sorted (params : list (string * Q)) (quota desired : Q)
      (tied : list Tree.node) (c : Tree.node * Q)
      (ws ws' : spacings_table) :
  (forall wid l, table_find wid ws = Some l -> sortedb l = true) ->
  greedy_step params quota desired tied c ws = Ret ws' ->
  forall wid l, table_find wid ws' = Some l -> sortedb l = true.
Proof.
  intros Hinv Hstep wid l Hl. unfold greedy_step in Hstep.
  destruct (choose_wall params quota desired tied c ws)
    as [[[sp w]|]|e]; try discriminate; injection Hstep as <-.
  - rewrite table_find_record_leader in Hl.
    destruct (Z.eqb w wid); [|apply (Hinv wid); exact Hl].
    destruct (table_find wid ws) as [l0|]; [|discriminate].
    cbn in Hl. injection Hl as <-. apply py_sorted_sorted.
  - apply (Hinv wid). exact Hl.
Qed.

Lemma greedy_loop_sorted (params : list (string * Q)) (quota desired : Q)
      (tied : list Tree.node) (candidates : list (Tree.node * Q)) :
  forall ws ws',
    (forall wid l, table_find wid ws = Some l -> sortedb l = true) ->
    greedy_loop params quota desired tied candidates ws = Ret ws' ->
    forall wid l, table_find wid ws' = Some l -> sortedb l = true.
Proof.
  induction candidates as [|c rest IH]; intros ws ws' Hinv Hrun.
  - cbn in Hrun. injection Hrun as <-. exact Hinv.
  - cbn [greedy_loop] in Hrun.
    destruct (greedy_step params quota desired tied c ws) as [ws1|e] eqn:E;
      [|discriminate].
    apply (IH ws1 ws'); [|exact Hrun].
    eapply greedy_step_sorted; eassumption.
Qed.

(** C3.  In the greedy loop of [assign_leaders], on a table whose walls
    are sorted as the code builds them, in whatever state of the table a
    candidate is reached: every position already occupied on the wall it
    is assigned to is at least [desired_spacing] away from it, and a wall
    with an occupied position closer than that is never the one
    chosen.  The distance is the absolute difference of the positions,
    not the value the code computes for it. *)
Theorem greedy_keeps_leader_spacing
        (params : list (string * Q)) (leaders_per_wall desired_spacing : Q)
        (all_tied_nodes : list Tree.node)
        (before : list (Tree.node * Q)) (candidate : Tree.node * Q)
        (wall_spacings0 wall_spacings : spacings_table) :
  NoDup (map fst wall_spacings0) ->
  (forall wall_id spacings,
      table_find wall_id wall_spacings0 = Some spacings ->
      sortedb spacings = true) ->
  greedy_loop params leaders_per_wall desired_spacing all_tied_nodes
    before wall_spacings0 = Ret wall_spacings ->
  (forall spacing wall_id,
      choose_wall params leaders_per_wall desired_spacing all_tied_nodes
        candidate wall_spacings = Ret (Some (spacing, wall_id)) ->
      greedy_step params leaders_per_wall desired_spacing all_tied_nodes
        candidate wall_spacings
      = Ret (record_leader wall_id (snd candidate) wall_spacings)
      /\ exists occupied,
          table_find wall_id wall_spacings = Some occupied
          /\ forall v, In v occupied ->
                       desired_spacing <= Qabs (snd candidate - v))
  /\ (forall wall_id occupied v,
         table_find wall_id wall_spacings = Some occupied ->
         In v occupied ->
         Qabs (snd candidate - v) < desired_spacing ->
         forall spacing,
           choose_wall params leaders_per_wall desired_spacing
             all_tied_nodes candidate wall_spacings
           <> Ret (Some (spacing, wall_id))).
Proof.
  intros Hnd0 Hsorted0 Hreach.
  assert (Hnd : NoDup (map fst wall_spacings))
    by (rewrite (greedy_loop_keys _ _ _ _ _ _ _ Hreach); exact Hnd0).
  pose proof (greedy_loop_sorted _ _ _ _ _ _ _ Hsorted0 Hreach) as Hsorted.
  assert (Hmain : forall spacing wall_id,
             choose_wall params leaders_per_wall desired_spacing
               all_tied_nodes candidate wall_spacings
             = Ret (Some (spacing, wall_id)) ->
             exists occupied,
               table_find wall_id wall_spacings = Some occupied
               /\ forall v, In v occupied ->
                            desired_spacing <= Qabs (snd candidate - v)).
  { intros spacing wall_id Hc. apply choose_wall_eligible in Hc.
    destruct (eligible_table_find _ _ _ _ _ Hnd Hc)
      as (occ & Hfind & _ & Hq & Hfloor). cbn [fst snd] in *.
    exists occ. split; [exact Hfind|]. intros v Hv.
    destruct (query_nearest (snd candidate) occ (Hsorted _ _ Hfind))
      as (d & Hq' & Hn & _).
    rewrite Hq in Hq'. injection Hq' as <-.
    destruct occ as [|y occ]; [destruct Hv|].
    destruct (nearest_spec (snd candidate) y occ) as (m & Hm & Hlow & _).
    rewrite Hm in Hn. destruct spacing as [a|]; [|destruct Hn].
    cbn [dist_eq dist_ltb] in *. apply Qltb_ge in Hfloor.
    specialize (Hlow v Hv). lra. }
  split.
  - intros spacing wall_id Hc. split.
    + unfold greedy_step. rewrite Hc. reflexivity.
    + exact (Hmain _ _ Hc).
  - intros wall_id occ v Hfind Hv Hlt spacing Hc.
    destruct (Hmain _ _ Hc) as (occ' & Hfind' & Hall).
    rewrite Hfind in Hfind'. injection Hfind' as <-.
    specialize (Hall v Hv). lra.
Qed.

(** C4.  In the greedy loop of [assign_leaders] a candidate is never
    assigned to a wall whose occupied-position list already has
    [leaders_per_wall] entries or more; hence, the quota being a whole
    number, no list is longer at the end of the loop than the larger of
    its length at the start and the quota. *)
Theorem greedy_respects_quota
        (params : list (string * Q)) (leaders_per_wall desired_spacing : Q)
        (all_tied_nodes : list Tree.node)
        (candidates : list (Tree.node * Q))
        (wall_spacings0 : spacings_table) :
  NoDup (map fst wall_spacings0) ->
  (forall before candidate after wall_spacings spacing wall_id,
      candidates = before ++ candidate :: after ->
      greedy_loop params leaders_per_wall desired_spacing all_tied_nodes
        before wall_spacings0 = Ret wall_spacings ->
      choose_wall params leaders_per_wall desired_spacing all_tied_nodes
        candidate wall_spacings = Ret (Some (spacing, wall_id)) ->
      exists occupied,
        table_find wall_id wall_spacings = Some occupied
        /\ inject_Z (Z.of_nat (List.length occupied)) < leaders_per_wall)
  /\ (forall quota wall_spacings,
         leaders_per_wall == inject_Z quota ->
         greedy_loop params leaders_per_wall desired_spacing all_tied_nodes
           candidates wall_spacings0 = Ret wall_spacings ->
         forall wall_id occupied,
           table_find wall_id wall_spacings = Some occupied ->
           exists occupied0,
             table_find wall_id wall_spacings0 = Some occupied0
             /\ (Z.of_nat (List.length occupied)
                 <= Z.max (Z.of_nat (List.length occupied0)) quota)%Z).
Proof.
  intros Hnd0. split.
  - intros before candidate after ws spacing wall_id _ Hreach Hc.
    assert (Hnd : NoDup (map fst ws))
      by (rewrite (greedy_loop_keys _ _ _ _ _ _ _ Hreach); exact Hnd0).
    apply choose_wall_eligible in Hc.
    destruct (eligible_table_find _ _ _ _ _ Hnd Hc)
      as (occ & Hfind & Hlen & _).
    exists occ. auto.
  - intros quota ws Hk. revert wall_spacings0 Hnd0 ws.
    induction candidates as [|c rest IH]; intros ws0 Hnd0 ws Hrun wid l Hl.
    + cbn in Hrun. injection Hrun as <-. exists l. split; [exact Hl | lia].
    + cbn [greedy_loop] in Hrun.
      destruct (greedy_step params leaders_per_wall desired_spacing
                  all_tied_nodes c ws0) as [ws1|e] eqn:E; [|discriminate].
      assert (Hnd1 : NoDup (map fst ws1))
        by (rewrite (greedy_step_keys _ _ _ _ _ _ _ E); exact Hnd0).
      destruct (IH ws1 Hnd1 ws Hrun wid l Hl) as (l1 & Hl1 & Hle1).
      destruct (greedy_step_lengths _ _ _ _ _ _ _ _ Hnd0 Hk E wid l1 Hl1)
        as (l0 & Hl0 & Hle0).
      exists l0. split; [exact Hl0 | lia].
Qed.

End GreedyClaims.

(** ** Frame lemmas for the controller's method bodies *)

Section Frames.
Context `{ext : Collaborators}.
Import Tree Trunk Leaders.

Lemma pure_ret {A : Type} (a : A) : pure_m (ret a).
Proof. intros self. reflexivity. Qed.

Lemma pure_raise {A : Type} (e : exn) : pure_m (raise (A := A) e).
Proof. intros self. reflexivity. Qed.

Lemma pure_lift {A : Type} (o : outcome A) : pure_m (lift o).
Proof. intros self. reflexivity. Qed.

Lemma pure_get_self : pure_m get_self.
Proof. intros self. reflexivity. Qed.

Lemma pure_found {A : Type} (e : exn) (o : option A) : pure_m (found e o).
Proof. intros self. destruct o; reflexivity. Qed.

Lemma pure_bind {A B : Type} (m : M A) (k : A -> M B) :
  pure_m m -> (forall a, pure_m (k a)) -> pure_m (bind m k).
Proof.
  intros Hm Hk self. unfold bind. specialize (Hm self).
  destruct (m self) as [[a|e] self']; cbn [snd] in *; subst self'.
  - apply Hk.
  - reflexivity.
Qed.

Lemma pure_the_tree : pure_m the_tree.
Proof.
  apply pure_bind; [apply pure_get_self | intros a; apply pure_found].
Qed.

Lemma pure_search_unique (g : Z) : pure_m (search_unique g).
Proof.
  apply pure_bind; [apply pure_the_tree|]. intros t.
  destruct (search_branches t g) as [|b [|b' rest]];
    [apply pure_raise | apply pure_ret | apply pure_raise].
Qed.

Lemma pure_the_branch (b : branch_id) : pure_m (the_branch b).
Proof.
  apply pure_bind; [apply pure_the_tree | intros t; apply pure_found].
Qed.

Lemma pure_untied_tail : pure_m untied_tail.
Proof.
  apply pure_bind; [apply pure_search_unique|]. intros b.
  apply pure_bind; [apply pure_the_branch|]. intros br.
  apply pure_bind; [apply pure_the_tree|]. intros t.
  apply pure_bind; [apply pure_lift|]. intros i. apply pure_ret.
Qed.

Lemma pure_find_module (module : string) (edge : node * node) :
  pure_m (find_module module edge).
Proof.
  apply pure_bind; [apply pure_the_tree|]. intros t.
  apply pure_bind; [apply pure_found|]. intros d. apply pure_ret.
Qed.

Lemma pure_keeps_walls {A : Type} (m : M A) : pure_m m -> keeps_walls m.
Proof. intros H self. rewrite H. reflexivity. Qed.

Lemma pure_pure_on_count {A : Type} (m : M A) : pure_m m -> pure_on_count m.
Proof. intros H self n _. apply H. Qed.

Lemma keeps_walls_bind {A B : Type} (m : M A) (k : A -> M B) :
  keeps_walls m -> (forall a, keeps_walls (k a)) -> keeps_walls (bind m k).
Proof.
  intros Hm Hk self. unfold bind. specialize (Hm self).
  destruct (m self) as [[a|e] self']; cbn [snd] in *.
  - rewrite Hk. exact Hm.
  - exact Hm.
Qed.

Lemma pure_on_count_bind {A B : Type} (m : M A) (k : A -> M B) :
  pure_on_count m -> (forall a, pure_on_count (k a)) ->
  pure_on_count (bind m k).
Proof.
  intros Hm Hk self n Hn. unfold bind. specialize (Hm self n Hn).
  destruct (m self) as [[a|e] self']; cbn [snd] in *; subst self'.
  - apply (Hk a self n Hn).
  - reflexivity.
Qed.

Lemma keeps_walls_mutate_tree (f : LStringGraphDual -> LStringGraphDual) :
  keeps_walls (mutate_tree f).
Proof.
  intros self. unfold mutate_tree. destruct (tree self); reflexivity.
Qed.

Lemma keeps_walls_manage_tied_branch (nodes : list node) (w i : Z) :
  keeps_walls (manage_tied_branch nodes w i).
Proof.
  apply keeps_walls_bind; [apply pure_keeps_walls, pure_get_self|].
  intros self. destruct (wire_walls self) as [n|m].
  - apply pure_keeps_walls, pure_raise.
  - apply keeps_walls_bind; [apply pure_keeps_walls, pure_found|].
    intros wall.
    destruct (Z.eqb i (Z.of_nat (List.length wall) - 1)).
    + apply keeps_walls_mutate_tree.
    + apply pure_keeps_walls.
      apply pure_bind; [apply pure_found|]. intros _.
      apply pure_bind; [apply pure_found|]. intros _. apply pure_raise.
Qed.

Lemma pure_on_count_manage_tied_branch (nodes : list node) (w i : Z) :
  pure_on_count (manage_tied_branch nodes w i).
Proof.
  intros self n Hn. unfold manage_tied_branch, bind, get_self.
  rewrite Hn. reflexivity.
Qed.

Lemma tie_scan_frame (nodes : list node) (edges : list (node * node)) :
  forall tied_nodes,
    keeps_walls (tie_scan nodes edges tied_nodes)
    /\ pure_on_count (tie_scan nodes edges tied_nodes).
Proof.
  induction edges as [|edge rest IH]; intros tied_nodes.
  - split; [apply pure_keeps_walls | apply pure_pure_on_count];
      apply pure_ret.
  - cbn [tie_scan]. split.
    + apply keeps_walls_bind;
        [apply pure_keeps_walls, pure_find_module|].
      intros [[|w [|i [|x l]]]|]; try (apply pure_keeps_walls, pure_raise).
      * apply keeps_walls_bind; [apply pure_keeps_walls, pure_found|].
        intros n0. apply keeps_walls_bind;
          [apply keeps_walls_manage_tied_branch | intros _; apply IH].
      * apply IH.
    + apply pure_on_count_bind;
        [apply pure_pure_on_count, pure_find_module|].
      intros [[|w [|i [|x l]]]|];
        try (apply pure_pure_on_count, pure_raise).
      * apply pure_on_count_bind; [apply pure_pure_on_count, pure_found|].
        intros n0. apply pure_on_count_bind;
          [apply pure_on_count_manage_tied_branch | intros _; apply IH].
      * apply IH.
Qed.

Lemma pure_mark_check (nodes : list node) (tied_nodes : registry) :
  pure_m (mark_check nodes tied_nodes).
Proof.
  apply pure_bind; [apply pure_found|]. intros n0.
  apply pure_bind; [apply pure_found|]. intros n1.
  apply pure_bind; [apply pure_find_module|]. intros [payload|].
  - apply pure_bind; [apply pure_found|]. intros w.
    destruct (reg_getitem w tied_nodes) as [[n|ns] r];
      [apply pure_raise | apply pure_ret].
  - apply pure_ret.
Qed.

Lemma register_branches_frame (branch_ids : list branch_id) :
  forall tied_nodes,
    keeps_walls (register_branches branch_ids tied_nodes)
    /\ pure_on_count (register_branches branch_ids tied_nodes).
Proof.
  induction branch_ids as [|b rest IH]; intros tied_nodes.
  - split; [apply pure_keeps_walls | apply pure_pure_on_count];
      apply pure_ret.
  - cbn [register_branches]. split.
    + apply keeps_walls_bind; [apply pure_keeps_walls, pure_the_branch|].
      intros br. apply keeps_walls_bind; [apply tie_scan_frame|].
      intros r. apply keeps_walls_bind;
        [apply pure_keeps_walls, pure_mark_check | intros r'; apply IH].
    + apply pure_on_count_bind;
        [apply pure_pure_on_count, pure_the_branch|].
      intros br. apply pure_on_count_bind; [apply tie_scan_frame|].
      intros r. apply pure_on_count_bind;
        [apply pure_pure_on_count, pure_mark_check | intros r'; apply IH].
Qed.

Lemma tied_registry_frame :
  keeps_walls tied_registry /\ pure_on_count tied_registry.
Proof.
  split.
  - apply keeps_walls_bind; [apply pure_keeps_walls, pure_the_tree|].
    intros t. apply register_branches_frame.
  - apply pure_on_count_bind; [apply pure_pure_on_count, pure_the_tree|].
    intros t. apply register_branches_frame.
Qed.

End Frames.

(** ** The controller's methods *)

Section ControllerFacts.
Context `{ext : Collaborators}.
Import Tree Trunk Leaders.

Lemma tie_down_trunk_result (self : UFOPruningStrategy)
      (res : outcome unit * UFOPruningStrategy) :
  tie_down_trunk self = res ->
  snd res = self
  \/ ((next_trunk_target self < List.length (trunk_targets self))%nat
      /\ exists t span fit p0 tp tangent,
          tree self = Some t
          /\ run_cubic_bezier_strain_opt p0 tp tangent 1 = (fit, true)
          /\ res
             = (Ret tt,
                mkStrategy (trunk_targets self) (wire_walls self)
                  (params self)
                  (Some (set_guide_on_nodes t span (CubicBezier_eval fit)
                           "GlobalGuide"))
                  (S (next_trunk_target self)) (leaders_assigned self))).
Proof.
  intros Hres. unfold tie_down_trunk in Hres.
  unfold bind at 1 in Hres. cbn [get_self] in Hres.
  destruct (Nat.ltb_spec (next_trunk_target self)
              (List.length (trunk_targets self))) as [Hlt | Hge];
    cbn [negb] in Hres; [|subst res; left; reflexivity].
  unfold bind at 1 in Hres.
  destruct (nth_error (trunk_targets self) (next_trunk_target self))
    as [tgt|]; cbn [found ret raise] in Hres;
    [|subst res; left; reflexivity].
  unfold bind at 1 in Hres.
  pose proof (pure_untied_tail self) as Hpure.
  destruct (untied_tail self) as [[[nodes pts]|e] s']; cbn [snd] in Hpure;
    subst s'; [|subst res; left; reflexivity].
  unfold bind at 1 in Hres. unfold tail_length in Hres.
  destruct (nth_error (cumsum (offsets_of pts)) _) as [length|];
    cbn [found ret raise] in Hres; [|subst res; left; reflexivity].
  destruct (Qltb 0 length); [|subst res; left; reflexivity].
  destruct (get_point_sequence_dist tgt pts) as [dist_to_target target_pt].
  unfold bind at 1 in Hres.
  destruct (nth_error pts 0) as [pts0|]; cbn [found ret raise] in Hres;
    [|subst res; left; reflexivity].
  destruct (Qltb _ length); [|subst res; left; reflexivity].
  unfold bind at 1 in Hres.
  destruct (nth_error nodes 0) as [n0|]; cbn [found ret raise] in Hres;
    [|subst res; left; reflexivity].
  unfold bind at 1 in Hres.
  destruct (nth_error pts _) as [p|]; cbn [found ret raise] in Hres;
    [|subst res; left; reflexivity].
  destruct (run_cubic_bezier_strain_opt pts0 target_pt (vsub p pts0) 1)
    as [fit success] eqn:Efit.
  destruct success; [|subst res; left; reflexivity].
  unfold bind, mutate_tree, advance_trunk_target in Hres.
  destruct (tree self) as [t|] eqn:Et; [|subst res; left; reflexivity].
  cbn in Hres. subst res.
  right. split; [exact Hlt|].
  do 6 eexists. split; [reflexivity|]. split; [exact Efit | reflexivity].
Qed.

(** A call of [tie_down_trunk] either leaves the controller as it was,
    or it has fitted a curve that converged, set the guide and advanced
    the target index by one. *)
Lemma tie_down_trunk_run (self : UFOPruningStrategy) :
  snd (tie_down_trunk self) = self
  \/ ((next_trunk_target self < List.length (trunk_targets self))%nat
      /\ exists t span fit p0 tp tangent,
          tree self = Some t
          /\ run_cubic_bezier_strain_opt p0 tp tangent 1 = (fit, true)
          /\ tie_down_trunk self
             = (Ret tt,
                mkStrategy (trunk_targets self) (wire_walls self)
                  (params self)
                  (Some (set_guide_on_nodes t span (CubicBezier_eval fit)
                           "GlobalGuide"))
                  (S (next_trunk_target self)) (leaders_assigned self))).
Proof. apply tie_down_trunk_result. reflexivity. Qed.

Lemma tie_down_calls_app (pre post : list LStringGraphDual) self :
  tie_down_calls (pre ++ post) self
  = tie_down_calls post (tie_down_calls pre self).
Proof.
  revert self. induction pre as [|t pre IH]; intros self; [reflexivity|].
  cbn [app tie_down_calls]. apply IH.
Qed.

Lemma tie_down_trunk_bounds (self : UFOPruningStrategy) :
  (next_trunk_target self <= List.length (trunk_targets self))%nat ->
  let after := snd (tie_down_trunk self) in
  trunk_targets after = trunk_targets self
  /\ (next_trunk_target self <= next_trunk_target after
      <= List.length (trunk_targets self))%nat.
Proof.
  intros Hle. cbv zeta.
  destruct (tie_down_trunk_run self)
    as [-> | (Hlt & t & span & fit & p0 & tp & tg & _ & _ & ->)];
    cbn [snd trunk_targets next_trunk_target]; split; try reflexivity; lia.
Qed.

Lemma tie_down_calls_bounds (snapshots : list LStringGraphDual) :
  forall self,
    (next_trunk_target self <= List.length (trunk_targets self))%nat ->
    trunk_targets (tie_down_calls snapshots self) = trunk_targets self
    /\ (next_trunk_target self
        <= next_trunk_target (tie_down_calls snapshots self)
        <= List.length (trunk_targets self))%nat.
Proof.
  induction snapshots as [|t rest IH]; intros self Hle.
  - cbn. split; [reflexivity | lia].
  - cbn [tie_down_calls].
    destruct (tie_down_trunk_bounds (set_tree t self) Hle) as [Ht Hb].
    cbn [set_tree trunk_targets next_trunk_target] in Ht, Hb.
    destruct (IH (snd (tie_down_trunk (set_tree t self)))) as [Ht' Hb'].
    + rewrite Ht. lia.
    + rewrite Ht', Ht. rewrite Ht in Hb'. split; [reflexivity | lia].
Qed.

(** C1.  Along every sequence of calls of [tie_down_trunk], however the
    plant grows between them, [next_trunk_target] never decreases and
    never exceeds the number of trunk targets; a single call either
    leaves it (and the tree) alone or raises it by exactly one, and it
    raises it exactly when a curve fit converged and its guide was
    set. *)
Theorem next_trunk_target_monotone (self0 : UFOPruningStrategy) :
  (next_trunk_target self0 <= List.length (trunk_targets self0))%nat ->
  (forall pre post,
      (next_trunk_target (tie_down_calls pre self0)
       <= next_trunk_target (tie_down_calls (pre ++ post) self0)
       <= List.length (trunk_targets self0))%nat)
  /\ (forall pre t,
         let before := set_tree t (tie_down_calls pre self0) in
         let after := snd (tie_down_trunk before) in
         tie_down_calls (pre ++ [t]) self0 = after
         /\ ((next_trunk_target after = next_trunk_target before
              /\ tree after = tree before)
             \/ (next_trunk_target after = S (next_trunk_target before)
                 /\ fst (tie_down_trunk before) = Ret tt
                 /\ exists span fit p0 tp tangent,
                     run_cubic_bezier_strain_opt p0 tp tangent 1
                     = (fit, true)
                     /\ tree after
                        = Some (set_guide_on_nodes t span
                                  (CubicBezier_eval fit) "GlobalGuide")))).
Proof.
  intros Hle. split.
  - intros pre post. rewrite tie_down_calls_app.
    destruct (tie_down_calls_bounds pre self0 Hle) as [Ht Hb].
    destruct (tie_down_calls_bounds post (tie_down_calls pre self0))
      as [Ht' Hb']; [rewrite Ht; lia|].
    rewrite Ht in Hb'. lia.
  - intros pre t. cbv zeta. split.
    + rewrite tie_down_calls_app. reflexivity.
    + destruct (tie_down_trunk_run (set_tree t (tie_down_calls pre self0)))
        as [-> | (Hlt & t' & span & fit & p0 & tp & tg & Ht & Hfit & ->)].
      * left. split; reflexivity.
      * right. cbn [snd fst next_trunk_target tree set_tree] in *.
        injection Ht as <-.
        split; [reflexivity|]. split; [reflexivity|].
        exists span, fit, p0, tp, tg. split; [exact Hfit | reflexivity].
Qed.

(** C7.  When the untied tail of the trunk has zero cumulative arc
    length, [tie_down_trunk] returns with the controller, its tree
    included, exactly as it was: no guide is set and
    [next_trunk_target] keeps its value. *)
Theorem tie_down_trunk_zero_length (self : UFOPruningStrategy)
        (nodes : list node) (pts : list vec) (length : Q) :
  fst (untied_tail self) = Ret (nodes, pts) ->
  nth_error (cumsum (offsets_of pts))
            (List.length (cumsum (offsets_of pts)) - 1) = Some length ->
  length == 0 ->
  tie_down_trunk self = (Ret tt, self).
Proof.
  intros Htail Hlen Hzero.
  unfold tie_down_trunk. unfold bind at 1. cbn [get_self].
  destruct (Nat.ltb_spec (next_trunk_target self)
              (List.length (trunk_targets self))) as [Hlt | Hge];
    cbn [negb]; [|reflexivity].
  unfold bind at 1.
  destruct (nth_error (trunk_targets self) (next_trunk_target self))
    as [tgt|] eqn:Etgt.
  2:{ apply nth_error_None in Etgt. lia. }
  cbn [found ret]. unfold bind at 1.
  pose proof (pure_untied_tail self) as Hpure.
  destruct (untied_tail self) as [[tail|e] s']; cbn [fst snd] in *;
    subst s'; [|discriminate].
  injection Htail as ->.
  unfold bind at 1. unfold tail_length. rewrite Hlen. cbn [found ret].
  assert (Hnot : Qltb 0 length = false) by (apply Qltb_ge; lra).
  rewrite Hnot. reflexivity.
Qed.

Lemma search_branches_lookup (t : LStringGraphDual) (g : Z) (b : branch_id) :
  In b (search_branches t g) -> exists br, branch_lookup t b = Some br.
Proof.
  unfold search_branches, branch_lookup. intros Hin.
  apply in_map_iff in Hin. destruct Hin as ([b' br] & <- & Hin).
  apply filter_In in Hin. destruct Hin as [Hin _].
  destruct (find (fun kv => Z.eqb (fst kv) (fst (b', br))) (branches t))
    as [kv|] eqn:E.
  - exists (snd kv). reflexivity.
  - apply (find_none _ _ E) in Hin. cbn in Hin.
    rewrite Z.eqb_refl in Hin. discriminate.
Qed.

Lemma pure_capacity_check (tied_nodes : registry) :
  pure_m (capacity_check tied_nodes).
Proof.
  apply pure_bind; [apply pure_get_self|]. intros self.
  destruct (wire_walls self); [apply pure_lift | apply pure_raise].
Qed.

Lemma capacity_check_count (tied_nodes : registry) self r :
  fst (capacity_check tied_nodes self) = Ret r ->
  exists n, wire_walls self = WallCount n.
Proof.
  unfold capacity_check, bind, get_self.
  destruct (wire_walls self) as [n|m]; [eauto | discriminate].
Qed.

Lemma assign_leaders_full (self : UFOPruningStrategy) :
  capacity_check_passes self -> assign_leaders self = (Ret tt, self).
Proof.
  intros (reg & reg' & self' & Hreg & Hcap).
  destruct (capacity_check_count _ _ _ Hcap) as [n Hn].
  destruct tied_registry_frame as [Hkeep Hpure].
  assert (Hself : self' = self).
  { specialize (Hkeep self). rewrite Hreg in Hkeep. cbn [snd] in Hkeep.
    rewrite Hn in Hkeep. symmetry in Hkeep.
    specialize (Hpure self n Hkeep). rewrite Hreg in Hpure. exact Hpure. }
  subst self'.
  unfold assign_leaders. unfold bind at 1. rewrite Hreg.
  unfold bind at 1.
  pose proof (pure_capacity_check reg self) as Hp.
  destruct (capacity_check reg self) as [o s']. cbn [fst snd] in *.
  subst s' o. reflexivity.
Qed.

(** X23.  With a unique trunk, every trunk target tied and the capacity
    check passing, [apply_strategy] returns with the controller and its
    tree unchanged, and so does calling it again. *)
Theorem apply_strategy_noop_when_check_passes (self : UFOPruningStrategy)
        (t : LStringGraphDual) (root_branch : branch_id) :
  tree self = Some t ->
  search_branches t 0 = [root_branch] ->
  next_trunk_target self = List.length (trunk_targets self) ->
  capacity_check_passes self ->
  apply_strategy self = (Ret tt, self)
  /\ bind apply_strategy (fun _ => apply_strategy) self = (Ret tt, self).
Proof.
  intros Ht Hroot Hnext Hfull.
  assert (Hone : apply_strategy self = (Ret tt, self)).
  { unfold apply_strategy. unfold bind at 1.
    assert (Htie : tie_down_trunk self = (Ret tt, self)).
    { unfold tie_down_trunk, bind, get_self. rewrite Hnext.
      rewrite Nat.ltb_irrefl. reflexivity. }
    rewrite Htie. unfold examine_leaders.
    assert (Hsearch : search_unique 0 self = (Ret root_branch, self)).
    { unfold search_unique, the_tree, bind, get_self. rewrite Ht.
      cbn [found ret]. rewrite Hroot. reflexivity. }
    unfold bind at 1. rewrite Hsearch.
    destruct (search_branches_lookup t 0 root_branch) as [br Hbr];
      [rewrite Hroot; left; reflexivity|].
    assert (Hbranch : the_branch root_branch self = (Ret br, self)).
    { unfold the_branch, the_tree, bind, get_self. rewrite Ht.
      cbn [found ret]. rewrite Hbr. reflexivity. }
    unfold bind at 1. rewrite Hbranch.
    unfold bind at 1.
    assert (Hrub : (if Qltb (Tree.length br) 5
                    then rub_off_trunk_buds else ret tt) self
                   = (Ret tt, self))
      by (destruct (Qltb (Tree.length br) 5); reflexivity).
    rewrite Hrub. apply assign_leaders_full. exact Hfull. }
  split; [exact Hone|].
  unfold bind. rewrite Hone. exact Hone.
Qed.
End ControllerFacts.

(** ** The fold index of [tie_down_trunk] *)

Module FoldIndex.
Import Tree Trunk Examples.

(** A first exceeding index other than [0] is the one taken. *)
Lemma tie_down_node_idx_found (cumul_lens : list Q) (curve_len : Q)
      (nodes : list node) (i : nat) :
  first_index (fun x => Qltb curve_len x) cumul_lens = Some (S i) ->
  tie_down_node_idx cumul_lens curve_len nodes = (Z.of_nat (S i) + 1)%Z.
Proof.
  intros H. unfold tie_down_node_idx, argmax_gt, py_or. rewrite H.
  destruct (Z.eqb_spec (Z.of_nat (S i)) 0); [lia | reflexivity].
Qed.

(** Without an exceeding index the second-to-last node is taken. *)
Lemma tie_down_node_idx_none (cumul_lens : list Q) (curve_len : Q)
      (nodes : list node) :
  first_index (fun x => Qltb curve_len x) cumul_lens = None ->
  tie_down_node_idx cumul_lens curve_len nodes
  = (Z.of_nat (List.length nodes) - 2 + 1)%Z.
Proof.
  intros H. unfold tie_down_node_idx, argmax_gt, py_or. rewrite H.
  reflexivity.
Qed.

(** An exceeding index of [0] is taken for "none": the second-to-last
    node is used although an exceeding index exists. *)
Lemma tie_down_node_idx_zero (cumul_lens : list Q) (curve_len : Q)
      (nodes : list node) :
  first_index (fun x => Qltb curve_len x) cumul_lens = Some O ->
  tie_down_node_idx cumul_lens curve_len nodes
  = (Z.of_nat (List.length nodes) - 2 + 1)%Z.
Proof.
  intros H. unfold tie_down_node_idx, argmax_gt, py_or. rewrite H.
  reflexivity.
Qed.

(** C6.  On a trunk of three nodes with cumulative lengths [5, 10] and a
    fitted curve of length 3, the first cumulative length that exceeds
    the curve length is at index 0, which asks for the fold index 1 and
    the span [nodes[:2]]; [tie_down_trunk] takes the fallback instead,
    fold index 2, and sets the guide on all three nodes. *)
Theorem tie_down_node_idx_first_internode :
  first_index (fun x => Qltb 3 x) [5; 10] = Some O
  /\ tie_down_node_idx [5; 10] 3 [0; 1; 2]%Z = 2%Z
  /\ fst (tie_down_trunk young_controller) = Ret tt
  /\ option_map annotations (tree (snd (tie_down_trunk young_controller)))
     = Some [Guide [0; 1; 2]%Z [origin; (3, 0, 0)] "GlobalGuide"].
Proof. repeat split; vm_compute; reflexivity. Qed.

End FoldIndex.

(** ** The tied-node registry *)

Module Registry.
Import Tree Leaders Examples.

(** C5.  On a plant with a leader marked for wall 0 (trunk node 1), a
    leader tied to wall 0 on its last edge (trunk node 2) and a leader
    tied to wall 1 on its second edge (trunk node 3), the registry ought
    to end as [{0: [1, 2], 1: [3]}].  The tie scan visits only the edges
    from the tip down to [(nodes[2], nodes[3])], so the third leader's
    tie is never seen, and a tie found stores the bare trunk node in
    place of the list: the registry ends as [{0: 2}]. *)
Theorem tied_registry_holds_bare_node :
  fst (tied_registry trained_controller) = Ret [(0%Z, RNode 2%Z)]
  /\ tip_to_base_edges (nodes tied_leader) = [(22, 23)%Z; (21, 22)%Z]
  /\ tip_to_base_edges (nodes low_tied_leader) = [(31, 32)%Z]
  /\ fst (apply_strategy trained_controller) = Raise TypeError.
Proof. repeat split; vm_compute; reflexivity. Qed.

End Registry.

(** ** Instances of the theorems on concrete inputs *)

Module Witnesses.
Import Tree Trunk Leaders Examples GreedyClaims.


Lemma query_dist_from_line_points_reflect_witness :
  sortedb [2; 5] = true
  /\ result_eq
       (query_dist_from_line_points (reflect 1 (36 # 10))
          (py_sorted (map (reflect 1) [2; 5])))
       (query_dist_from_line_points (36 # 10) [2; 5]).
Proof.
  split; [reflexivity|].
  apply (query_dist_from_line_points_reflect (36 # 10) 1 [2; 5]).
  reflexivity.
Defined.

Lemma one_wall_keys : NoDup (map fst one_wall).
Proof. repeat constructor. intros []. Defined.

Lemma one_wall_sorted :
  forall wall_id spacings,
    table_find wall_id one_wall = Some spacings -> sortedb spacings = true.
Proof.
  intros wid l H. unfold one_wall in H.
  rewrite DictFacts.table_find_cons in H.
  destruct (Z.eqb 0 wid); [|discriminate]. injection H as <-. reflexivity.
Defined.

Lemma greedy_keeps_leader_spacing_witness :
  NoDup (map fst one_wall)
  /\ (forall wall_id spacings,
         table_find wall_id one_wall = Some spacings ->
         sortedb spacings = true)
  /\ greedy_loop [] 5 (9 # 10) [] [] one_wall = Ret one_wall
  /\ exists spacing occupied,
      choose_wall [] 5 (9 # 10) [] (3%Z, 76 # 10) one_wall
      = Ret (Some (spacing, 0%Z))
      /\ table_find 0 one_wall = Some occupied
      /\ forall v, In v occupied -> 9 # 10 <= Qabs ((76 # 10) - v).
Proof.
  split; [exact one_wall_keys|]. split; [exact one_wall_sorted|].
  split; [reflexivity|].
  destruct (greedy_keeps_leader_spacing [] 5 (9 # 10) [] []
              (3%Z, 76 # 10) one_wall one_wall one_wall_keys
              one_wall_sorted eq_refl)
    as [H _].
  eexists.
  assert (Hc : choose_wall [] 5 (9 # 10) [] (3%Z, 76 # 10) one_wall
               = Ret (Some (Fin (Qmin ((76 # 10) - 6) (9 - (76 # 10))),
                            0%Z))) by reflexivity.
  destruct (H _ _ Hc) as (_ & occupied & Hfind & Hfar).
  exists occupied. split; [exact Hc|]. auto.
Defined.

Lemma greedy_respects_quota_witness :
  NoDup (map fst one_wall)
  /\ 5 == inject_Z 5
  /\ greedy_loop [] 5 (9 # 10) []
       [(3%Z, 76 # 10); (4%Z, 63 # 10); (5%Z, 12)] one_wall
     = Ret [(0%Z, packed_wall)]
  /\ exists occupied0,
      table_find 0 one_wall = Some occupied0
      /\ (Z.of_nat (List.length packed_wall)
          <= Z.max (Z.of_nat (List.length occupied0)) 5)%Z.
Proof.
  split; [exact one_wall_keys|]. split; [reflexivity|].
  split; [vm_compute; reflexivity|].
  apply (proj2 (greedy_respects_quota [] 5 (9 # 10) []
                  [(3%Z, 76 # 10); (4%Z, 63 # 10); (5%Z, 12)]
                  one_wall one_wall_keys)
               5%Z [(0%Z, packed_wall)]);
    [reflexivity | vm_compute; reflexivity | reflexivity].
Defined.

Lemma next_trunk_target_monotone_witness :
  (next_trunk_target young_controller
   <= List.length (trunk_targets young_controller))%nat
  /\ (next_trunk_target (tie_down_calls [young_tree] young_controller)
      <= next_trunk_target
           (tie_down_calls ([young_tree] ++ [young_tree]) young_controller)
      <= List.length (trunk_targets young_controller))%nat.
Proof.
  assert (H : (next_trunk_target young_controller
               <= List.length (trunk_targets young_controller))%nat)
    by (cbn; lia).
  split; [exact H|].
  exact (proj1 (next_trunk_target_monotone young_controller H)
               [young_tree] [young_tree]).
Defined.

Lemma tie_down_trunk_zero_length_witness :
  fst (untied_tail seed_controller) = Ret ([0; 1]%Z, [origin; origin])
  /\ nth_error (cumsum (offsets_of (ext := straight_line) [origin; origin]))
               (List.length (cumsum (offsets_of (ext := straight_line) [origin; origin])) - 1)
     = Some 0
  /\ 0 == 0
  /\ tie_down_trunk seed_controller = (Ret tt, seed_controller).
Proof.
  assert (H1 : fst (untied_tail seed_controller)
               = Ret ([0; 1]%Z, [origin; origin])) by reflexivity.
  assert (H2 : nth_error (cumsum (offsets_of (ext := straight_line) [origin; origin]))
                 (List.length (cumsum (offsets_of (ext := straight_line) [origin; origin])) - 1)
               = Some 0) by reflexivity.
  assert (H3 : 0 == 0) by reflexivity.
  split; [exact H1|]. split; [exact H2|]. split; [exact H3|].
  exact (tie_down_trunk_zero_length seed_controller _ _ _ H1 H2 H3).
Defined.

Lemma full_controller_check_passes : capacity_check_passes full_controller.
Proof.
  exists [(0%Z, RList [1%Z])], [(0%Z, RList [1%Z])], full_controller.
  split; reflexivity.
Defined.

Lemma apply_strategy_noop_when_check_passes_witness :
  tree full_controller = Some full_tree
  /\ search_branches full_tree 0 = [0%Z]
  /\ next_trunk_target full_controller
     = List.length (trunk_targets full_controller)
  /\ capacity_check_passes full_controller
  /\ apply_strategy full_controller = (Ret tt, full_controller)
  /\ bind apply_strategy (fun _ => apply_strategy) full_controller
     = (Ret tt, full_controller).
Proof.
  split; [reflexivity|]. split; [reflexivity|]. split; [reflexivity|].
  split; [exact full_controller_check_passes|].
  exact (apply_strategy_noop_when_check_passes full_controller full_tree 0%Z
           eq_refl eq_refl eq_refl full_controller_check_passes).
Defined.

End Witnesses.

(** * Further properties of the code *)

(** ** [query_dist_from_line_points] on any input *)

Module QueryExtras.





End QueryExtras.

(** ** The greedy loop as a whole *)

Module GreedyExtras.
Import Tree Leaders DictFacts GreedyFacts GreedyClaims Vocabulary QueryExtras.


Lemma choose_wall_not_passed (params : list (string * Q)) (quota desired : Q)
      (tied : list node) (c : node * Q) (ws : spacings_table)
      (choice : dist * Z) :
  choose_wall params quota desired tied c ws = Ret (Some choice) ->
  passed_over params tied c = false.
Proof.
  unfold choose_wall, passed_over. destruct c as [n cum_dist]. cbn [fst snd].
  destruct (existsb (Z.eqb n) tied
            || Qltb cum_dist (params_get params "trunk_bare_dist" 5));
    [discriminate | reflexivity].
Qed.

(** What one round of the greedy loop does to the table: nothing, or one
    wall gets the candidate's position and is sorted again. *)
Lemma greedy_step_effect (params : list (string * Q)) (quota desired : Q)
      (tied : list node) (c : node * Q) (ws ws' : spacings_table) :
  greedy_step params quota desired tied c ws = Ret ws' ->
  ws' = ws
  \/ exists sp w,
      choose_wall params quota desired tied c ws = Ret (Some (sp, w))
      /\ forall wid,
          table_find wid ws'
          = if Z.eqb w wid
            then option_map (fun l => py_sorted (l ++ [snd c]))
                            (table_find wid ws)
            else table_find wid ws.
Proof.
  unfold greedy_step.
  destruct (choose_wall params quota desired tied c ws)
    as [[[sp w]|]|e] eqn:Hc; intros [= <-]; [|left; reflexivity].
  right. exists sp, w. split; [reflexivity|].
  intros wid. apply table_find_record_leader.
Qed.

(** X5.  The greedy loop only ever adds positions: it keeps the walls of the
    table, and each wall's final list is a rearrangement of its initial
    list together with positions of candidates that were not passed
    over. *)
Theorem greedy_loop_append_only (params : list (string * Q))
        (quota desired : Q) (tied : list node)
        (candidates : list (node * Q)) (ws0 ws : spacings_table) :
  greedy_loop params quota desired tied candidates ws0 = Ret ws ->
  map fst ws = map fst ws0
  /\ forall wid l0,
      table_find wid ws0 = Some l0 ->
      exists l added,
        table_find wid ws = Some l
        /\ Permutation l (l0 ++ added)
        /\ forall x, In x added ->
             exists c, In c candidates /\ snd c = x
                       /\ passed_over params tied c = false.
Proof.
  intros Hrun. split; [eapply greedy_loop_keys; exact Hrun|].
  revert ws0 Hrun. induction candidates as [|c rest IH]; intros ws0 Hrun wid l0 Hl0.
  - cbn in Hrun. injection Hrun as <-. exists l0, [].
    split; [exact Hl0|]. split; [rewrite app_nil_r; reflexivity|].
    intros x [].
  - cbn [greedy_loop] in Hrun.
    destruct (greedy_step params quota desired tied c ws0) as [ws1|e] eqn:E;
      [|discriminate].
    destruct (greedy_step_effect _ _ _ _ _ _ _ E) as [-> | (sp & w & Hc & Heff)].
    + destruct (IH ws0 Hrun wid l0 Hl0) as (l & added & Hl & Hperm & Hadd).
      exists l, added. split; [exact Hl|]. split; [exact Hperm|].
      intros x Hx. destruct (Hadd x Hx) as (c' & Hc' & Hs & Hp).
      exists c'. split; [right; exact Hc' | auto].
    + specialize (Heff wid). rewrite Hl0 in Heff.
      destruct (Z.eqb w wid) eqn:Ew; cbn [option_map] in Heff.
      * destruct (IH ws1 Hrun wid _ Heff) as (l & added & Hl & Hperm & Hadd).
        exists l, (snd c :: added). split; [exact Hl|]. split.
        -- rewrite Hperm. rewrite (py_sorted_perm (l0 ++ [snd c])).
           rewrite <- app_assoc. reflexivity.
        -- intros x [<- | Hx].
           ++ exists c. split; [left; reflexivity|]. split; [reflexivity|].
              eapply choose_wall_not_passed. exact Hc.
           ++ destruct (Hadd x Hx) as (c' & Hc' & Hs & Hp).
              exists c'. split; [right; exact Hc' | auto].
      * destruct (IH ws1 Hrun wid l0 Heff) as (l & added & Hl & Hperm & Hadd).
        exists l, added. split; [exact Hl|]. split; [exact Hperm|].
        intros x Hx. destruct (Hadd x Hx) as (c' & Hc' & Hs & Hp).
        exists c'. split; [right; exact Hc' | auto].
Qed.


Lemma Qabs_swap (a b : Q) : Qabs (a - b) == Qabs (b - a).
Proof.
  assert (H : a - b == - (b - a)) by lra. rewrite H. apply Qabs_opp.
Qed.

Lemma spaced_perm (d : Q) (l l' : list Q) :
  Permutation l l' -> spaced d l -> spaced d l'.
Proof.
  induction 1 as [|x l l' Hp IH|x y l|l l' l'' Hp1 IH1 Hp2 IH2]; intros Hs.
  - exact I.
  - destruct Hs as [Hx Hl]. split; [|apply IH; exact Hl].
    intros v Hv. apply Hx.
    apply (Permutation_in _ (Permutation_sym Hp)). exact Hv.
  - destruct Hs as [Hy [Hx Hl]]. cbn [spaced]. split; [|split].
    + intros v [<- | Hv].
      * rewrite Qabs_swap. apply Hy. left. reflexivity.
      * apply Hx. exact Hv.
    + intros v Hv. apply Hy. right. exact Hv.
    + exact Hl.
  - apply IH2, IH1, Hs.
Qed.

(** The invariant of the greedy loop on a table whose walls are kept
    sorted and spaced. *)
Lemma greedy_step_spaced (params : list (string * Q)) (quota desired : Q)
      (tied : list node) (c : node * Q) (ws ws' : spacings_table) :
  NoDup (map fst ws) ->
  (forall wid l, table_find wid ws = Some l ->
                 sortedb l = true /\ spaced desired l) ->
  greedy_step params quota desired tied c ws = Ret ws' ->
  forall wid l, table_find wid ws' = Some l ->
                sortedb l = true /\ spaced desired l.
Proof.
  intros Hnd Hinv Hstep wid l Hl.
  destruct (greedy_step_effect _ _ _ _ _ _ _ Hstep)
    as [-> | (sp & w & Hc & Heff)]; [apply (Hinv wid); exact Hl|].
  rewrite Heff in Hl. destruct (Z.eqb_spec w wid) as [Heq | Hne];
    [subst wid|apply (Hinv wid); exact Hl].
  apply choose_wall_eligible in Hc.
  destruct (eligible_table_find _ _ _ _ _ Hnd Hc)
    as (occ & Hfind & _ & Hq & Hfloor). cbn [fst snd] in *.
  rewrite Hfind in Hl. cbn in Hl. injection Hl as <-.
  destruct (Hinv w occ Hfind) as [Hsorted Hspaced].
  split; [apply py_sorted_sorted|].
  apply (spaced_perm desired (snd c :: occ)).
  - rewrite py_sorted_perm. apply Permutation_cons_append.
  - split; [|exact Hspaced].
    intros v Hv.
    destruct (query_nearest (snd c) occ Hsorted) as (d & Hq' & Hn & _).
    rewrite Hq in Hq'. injection Hq' as <-.
    destruct occ as [|y occ]; [destruct Hv|].
    destruct (nearest_spec (snd c) y occ) as (m & Hm & Hlow & _).
    rewrite Hm in Hn. destruct sp as [a|]; [|destruct Hn].
    cbn [dist_eq dist_ltb] in *. apply Qltb_ge in Hfloor.
    specialize (Hlow v Hv). lra.
Qed.

(** X6.  The greedy loop keeps every wall sorted and keeps the spacing
    floor: when the walls of the table start out sorted with their
    positions pairwise at least [desired_spacing] apart, they end that
    way. *)
Theorem greedy_loop_keeps_spacing (params : list (string * Q))
        (quota desired : Q) (tied : list node)
        (candidates : list (node * Q)) (ws0 ws : spacings_table) :
  NoDup (map fst ws0) ->
  (forall wid l, table_find wid ws0 = Some l ->
                 sortedb l = true /\ spaced desired l) ->
  greedy_loop params quota desired tied candidates ws0 = Ret ws ->
  forall wid l, table_find wid ws = Some l ->
                sortedb l = true /\ spaced desired l.
Proof.
  revert ws0. induction candidates as [|c rest IH]; intros ws0 Hnd Hinv Hrun.
  - cbn in Hrun. injection Hrun as <-. exact Hinv.
  - cbn [greedy_loop] in Hrun.
    destruct (greedy_step params quota desired tied c ws0) as [ws1|e] eqn:E;
      [|discriminate].
    apply (IH ws1); [| |exact Hrun].
    + rewrite (greedy_step_keys _ _ _ _ _ _ _ E). exact Hnd.
    + eapply greedy_step_spaced; eassumption.
Qed.






End GreedyExtras.

(** ** The registry loops *)

Module RegistryExtras.
Import Tree Leaders Vocabulary.

Lemma reg_find_cons (k k' : Z) (v : reg_value) (d : registry) :
  reg_find k' ((k, v) :: d) = if Z.eqb k k' then Some v else reg_find k' d.
Proof.
  unfold reg_find. cbn [find fst]. destruct (Z.eqb k k'); reflexivity.
Qed.

Lemma reg_find_dict_set (k k' : Z) (v : reg_value) (d : registry) :
  reg_find k' (dict_set k v d)
  = if Z.eqb k k' then Some v else reg_find k' d.
Proof.
  induction d as [|[k1 v1] d IH]; cbn [dict_set].
  - rewrite reg_find_cons. reflexivity.
  - destruct (Z.eqb_spec k1 k) as [-> | Hne].
    + rewrite !reg_find_cons. destruct (Z.eqb k k'); reflexivity.
    + rewrite !reg_find_cons, IH.
      destruct (Z.eqb_spec k1 k') as [-> | Hne'];
        destruct (Z.eqb_spec k k') as [-> | Hne'']; congruence.
Qed.

(** Reading an entry does not change what is registered anywhere. *)
Lemma registered_getitem (w w' : Z) (r : registry) :
  registered w' (snd (reg_getitem w r)) = registered w' r.
Proof.
  unfold reg_getitem, registered.
  destruct (reg_find w r) as [v|] eqn:E; [reflexivity|].
  cbn [snd]. rewrite reg_find_dict_set.
  destruct (Z.eqb_spec w w') as [<- | Hne]; [rewrite E|]; reflexivity.
Qed.

Lemma bare_entry_getitem (w w' : Z) (r : registry) :
  bare_entry (snd (reg_getitem w r)) w' = bare_entry r w'.
Proof.
  unfold reg_getitem, bare_entry.
  destruct (reg_find w r) as [v|] eqn:E; [reflexivity|].
  cbn [snd]. rewrite reg_find_dict_set.
  destruct (Z.eqb_spec w w') as [<- | Hne]; [rewrite E|]; reflexivity.
Qed.

Lemma at_quota_getitem (q : Q) (w w' : Z) (r : registry) :
  at_quota q (snd (reg_getitem w r)) w' = at_quota q r w'.
Proof. unfold at_quota. rewrite registered_getitem. reflexivity. Qed.

Lemma forallb_same {A : Type} (f g : A -> bool) (l : list A) :
  (forall x, f x = g x) -> forallb f l = forallb g l.
Proof.
  intros H. induction l as [|x l IH]; [reflexivity|].
  cbn. rewrite H, IH. reflexivity.
Qed.

Lemma existsb_same {A : Type} (f g : A -> bool) (l : list A) :
  (forall x, f x = g x) -> existsb f l = existsb g l.
Proof.
  intros H. induction l as [|x l IH]; [reflexivity|].
  cbn. rewrite H, IH. reflexivity.
Qed.

(** X8.  The capacity loop in closed form.  It raises [TypeError] exactly
    when some wall of the range holds a bare node id; otherwise it binds
    the walls without an entry to the empty list and leaves [is_full] set
    exactly when it was set before and every wall of the range has at
    least [leaders_per_wall] registered nodes, a wall without an entry
    counting as empty. *)
Theorem capacity_loop_closed_form (walls : list Z) (quota : Q) :
  forall (tied_nodes : registry) (is_full : bool),
    capacity_loop walls quota tied_nodes is_full
    = if existsb (bare_entry tied_nodes) walls
      then Raise TypeError
      else Ret (bind_missing walls tied_nodes,
                is_full && forallb (at_quota quota tied_nodes) walls).
Proof.
  induction walls as [|w walls IH]; intros r full.
  - cbn. rewrite andb_true_r. reflexivity.
  - cbn [capacity_loop existsb forallb bind_missing fold_left].
    destruct (reg_getitem w r) as [v r'] eqn:E.
    assert (Hr' : r' = snd (reg_getitem w r)) by (rewrite E; reflexivity).
    assert (Hv : v = fst (reg_getitem w r)) by (rewrite E; reflexivity).
    unfold bare_entry at 1. unfold at_quota at 1. unfold registered.
    unfold reg_getitem in Hv.
    destruct (reg_find w r) as [[n|ns]|] eqn:Ef; cbn [fst] in Hv; subst v.
    + reflexivity.
    + cbn [orb]. rewrite IH. subst r'.
      rewrite (existsb_same _ _ walls (fun w' => bare_entry_getitem w w' r)).
      rewrite (forallb_same _ _ walls (fun w' => at_quota_getitem quota w w' r)).
      destruct (existsb (bare_entry r) walls); [reflexivity|].
      unfold bind_missing.
      destruct (Qltb (inject_Z (Z.of_nat (List.length ns))) quota);
        cbn [negb andb]; [rewrite andb_false_r|]; reflexivity.
    + cbn [orb]. rewrite IH. subst r'.
      rewrite (existsb_same _ _ walls (fun w' => bare_entry_getitem w w' r)).
      rewrite (forallb_same _ _ walls (fun w' => at_quota_getitem quota w w' r)).
      destruct (existsb (bare_entry r) walls); [reflexivity|].
      unfold bind_missing.
      destruct (Qltb (inject_Z (Z.of_nat (@List.length node []))) quota);
        cbn [negb andb]; [rewrite andb_false_r|]; reflexivity.
Qed.

(** The loop that turns the registry into positions lets only empty
    entries through. *)
Lemma wall_spacings_loop_raises (items : registry) :
  forall acc,
    forallb empty_entry items = false ->
    wall_spacings_loop items acc = Raise TypeError.
Proof.
  induction items as [|[w v] items IH]; intros acc H; [discriminate|].
  cbn [wall_spacings_loop]. cbn [forallb] in H.
  destruct v as [n|[|x ns]]; try reflexivity.
  apply IH. exact H.
Qed.

Lemma wall_spacings_loop_empty (items : registry) :
  forall acc,
    forallb empty_entry items = true ->
    wall_spacings_loop items acc
    = Ret (fold_left (fun a kv => dict_set (fst kv) [] a) items acc, []).
Proof.
  induction items as [|[w v] items IH]; intros acc H; [reflexivity|].
  cbn [wall_spacings_loop]. cbn [forallb] in H.
  apply andb_true_iff in H. destruct H as [Hv H].
  destruct v as [n|[|x ns]]; try discriminate.
  rewrite IH by exact H. reflexivity.
Qed.

End RegistryExtras.

(** ** Leader examination as a whole *)

Section LeaderMethods.
Context `{ext : Collaborators}.
Import Tree Trunk Leaders Vocabulary RegistryExtras.

Lemma pure_search_new_leaders (tied_nodes : registry) :
  pure_m (search_new_leaders tied_nodes).
Proof.
  apply pure_bind; [apply pure_get_self|]. intros self.
  apply pure_bind; [apply pure_search_unique|]. intros b.
  apply pure_bind; [apply pure_the_branch|]. intros br.
  apply pure_bind; [apply pure_lift|]. intros [ws tied].
  apply pure_lift.
Qed.

Lemma assign_leaders_result (self : UFOPruningStrategy)
      (res : outcome unit * UFOPruningStrategy) :
  assign_leaders self = res ->
  fst res = Ret tt ->
  (exists n, wire_walls self = WallCount n) /\ snd res = self.
Proof.
  intros Hres. unfold assign_leaders in Hres. unfold bind at 1 in Hres.
  destruct tied_registry_frame as [Hkeep Hpure].
  specialize (Hkeep self). specialize (Hpure self).
  destruct (tied_registry self) as [[reg|e] s1]; cbn [fst snd] in *;
    [|subst res; discriminate].
  unfold bind at 1 in Hres.
  pose proof (pure_capacity_check reg s1) as Hcap.
  destruct (capacity_check reg s1) as [[[reg' is_full]|e] s2] eqn:Ec;
    cbn [fst snd] in *; [|subst res; discriminate]. subst s2.
  destruct (capacity_check_count reg s1 (reg', is_full)) as [n Hn];
    [rewrite Ec; reflexivity|].
  rewrite Hn in Hkeep. symmetry in Hkeep.
  specialize (Hpure n Hkeep). subst s1.
  intros Hret. split; [eauto|].
  destruct (negb is_full); [|subst res; reflexivity].
  unfold bind in Hres.
  pose proof (pure_search_new_leaders reg' self) as Hs.
  destruct (search_new_leaders reg' self) as [[ws|e] s3]; cbn [snd] in *;
    subst res; exact Hs.
Qed.

(** A normal return of [assign_leaders] means that [wire_walls] is a
    number and that nothing was changed. *)
Lemma assign_leaders_ret_frame (self : UFOPruningStrategy) :
  fst (assign_leaders self) = Ret tt ->
  (exists n, wire_walls self = WallCount n)
  /\ snd (assign_leaders self) = self.
Proof. apply assign_leaders_result. reflexivity. Qed.

Lemma examine_leaders_result (self : UFOPruningStrategy)
      (res : outcome unit * UFOPruningStrategy) :
  examine_leaders self = res ->
  fst res = Ret tt ->
  (exists n, wire_walls self = WallCount n) /\ snd res = self.
Proof.
  intros Hres. unfold examine_leaders in Hres. unfold bind at 1 in Hres.
  pose proof (pure_search_unique 0 self) as H1.
  destruct (search_unique 0 self) as [[b|e] s1]; cbn [fst snd] in *;
    subst s1; [|subst res; discriminate].
  unfold bind at 1 in Hres.
  pose proof (pure_the_branch b self) as H2.
  destruct (the_branch b self) as [[br|e] s2]; cbn [fst snd] in *;
    subst s2; [|subst res; discriminate].
  unfold bind at 1 in Hres.
  assert (Hrub : (if Qltb (Tree.length br) 5
                  then rub_off_trunk_buds else ret tt) self = (Ret tt, self))
    by (destruct (Qltb (Tree.length br) 5); reflexivity).
  rewrite Hrub in Hres. apply assign_leaders_result. exact Hres.
Qed.

Lemma examine_leaders_ret_frame (self : UFOPruningStrategy) :
  fst (examine_leaders self) = Ret tt ->
  (exists n, wire_walls self = WallCount n)
  /\ snd (examine_leaders self) = self.
Proof. apply examine_leaders_result. reflexivity. Qed.

(** X9.  Leader examination has no lasting effect: whenever
    [assign_leaders] or [examine_leaders] returns normally, [wire_walls]
    is a number and the controller with its tree is exactly as before. *)
Theorem leader_examination_changes_nothing (self : UFOPruningStrategy) :
  (fst (assign_leaders self) = Ret tt ->
   (exists n, wire_walls self = WallCount n)
   /\ snd (assign_leaders self) = self)
  /\ (fst (examine_leaders self) = Ret tt ->
      (exists n, wire_walls self = WallCount n)
      /\ snd (examine_leaders self) = self).
Proof.
  split; [apply assign_leaders_ret_frame | apply examine_leaders_ret_frame].
Qed.

(** X10.  Whenever [apply_strategy] returns normally, the trunk tie-down
    returned normally and what [apply_strategy] did to the controller and
    its tree is what [tie_down_trunk] did. *)
Theorem apply_strategy_effect (self : UFOPruningStrategy) :
  fst (apply_strategy self) = Ret tt ->
  fst (tie_down_trunk self) = Ret tt
  /\ snd (apply_strategy self) = snd (tie_down_trunk self).
Proof.
  assert (H : forall res, apply_strategy self = res -> fst res = Ret tt ->
                          fst (tie_down_trunk self) = Ret tt
                          /\ snd res = snd (tie_down_trunk self)).
  { intros res Hres. unfold apply_strategy, bind in Hres.
    destruct (tie_down_trunk self) as [[[]|e] s1]; cbn [fst snd];
      [|subst res; discriminate].
    intros Hret. split; [reflexivity|].
    eapply examine_leaders_result; eassumption. }
  apply H. reflexivity.
Qed.

(** X11.  With [wire_walls] given as a mapping, [assign_leaders] never
    returns normally. *)
Theorem assign_leaders_mapping_raises (self : UFOPruningStrategy)
        (m : list (Z * list target)) :
  wire_walls self = WallMap m ->
  exists e, fst (assign_leaders self) = Raise e.
Proof.
  intros Hm.
  destruct (fst (assign_leaders self)) as [[]|e] eqn:E; [|eauto].
  destruct (assign_leaders_ret_frame self E) as [[n Hn] _]. congruence.
Qed.

(** X12.  [manage_tied_branch] returns normally only for a branch tied to
    the last wire of its wall, and then it has stubbed the branch with the
    configured excess (2.5 by default); in every other case it raises. *)
Theorem manage_tied_branch_returns (nodes : list node)
        (wall_id wall_tie_idx : Z) (self : UFOPruningStrategy) :
  fst (manage_tied_branch nodes wall_id wall_tie_idx self) = Ret tt ->
  exists m wall t,
    wire_walls self = WallMap m
    /\ option_map snd (find (fun kv => Z.eqb (fst kv) wall_id) m) = Some wall
    /\ wall_tie_idx = (Z.of_nat (List.length wall) - 1)%Z
    /\ tree self = Some t
    /\ snd (manage_tied_branch nodes wall_id wall_tie_idx self)
       = mkStrategy (trunk_targets self) (wire_walls self) (params self)
           (Some (stub_branch t nodes
                    (params_get (params self) "leader_excess_stub" (5 # 2))))
           (next_trunk_target self) (leaders_assigned self).
Proof.
  remember (manage_tied_branch nodes wall_id wall_tie_idx self) as res
    eqn:Hres.
  unfold manage_tied_branch in Hres. unfold bind at 1 in Hres.
  cbn [get_self] in Hres.
  destruct (wire_walls self) as [n|m] eqn:Hw; [subst res; discriminate|].
  unfold bind at 1 in Hres.
  destruct (option_map snd (find (fun kv => Z.eqb (fst kv) wall_id) m))
    as [wall|] eqn:Hwall; cbn [found ret raise] in Hres;
    [|subst res; discriminate].
  destruct (Z.eqb_spec wall_tie_idx (Z.of_nat (List.length wall) - 1))
    as [Heq | Hne].
  - unfold mutate_tree in Hres.
    destruct (tree self) as [t|] eqn:Ht; [|subst res; discriminate].
    intros _. exists m, wall, t. subst res. rewrite Hw. cbn [snd]. auto.
  - unfold bind at 1 in Hres.
    destruct (nth_error nodes 0); cbn [found ret raise] in Hres;
      [|subst res; discriminate].
    unfold bind at 1 in Hres.
    destruct (py_index wall (wall_tie_idx + 1)); cbn [found ret raise] in Hres;
      subst res; discriminate.
Qed.

(** X13.  When any leader is registered already, be it in a list or as a
    bare node id, the search for new leaders raises [TypeError] before it
    looks at a single candidate, and changes nothing. *)
Theorem search_new_leaders_registered_raises (self : UFOPruningStrategy)
        (t : LStringGraphDual) (root_branch : branch_id)
        (tied_nodes : registry) :
  tree self = Some t ->
  search_branches t 0 = [root_branch] ->
  forallb empty_entry tied_nodes = false ->
  search_new_leaders tied_nodes self = (Raise TypeError, self).
Proof.
  intros Ht Hroot Hreg.
  unfold search_new_leaders. unfold bind at 1. cbn [get_self].
  assert (Hsearch : search_unique 0 self = (Ret root_branch, self)).
  { unfold search_unique, the_tree, bind, get_self. rewrite Ht.
    cbn [found ret]. rewrite Hroot. reflexivity. }
  unfold bind at 1. rewrite Hsearch.
  destruct (search_branches_lookup t 0 root_branch) as [br Hbr];
    [rewrite Hroot; left; reflexivity|].
  assert (Hbranch : the_branch root_branch self = (Ret br, self)).
  { unfold the_branch, the_tree, bind, get_self. rewrite Ht.
    cbn [found ret]. rewrite Hbr. reflexivity. }
  unfold bind at 1. rewrite Hbranch.
  unfold bind, lift. rewrite (wall_spacings_loop_raises _ _ Hreg).
  reflexivity.
Qed.

(** X14.  Before [set_tree] has bound a tree, [apply_strategy] raises
    [AttributeError] and leaves the freshly built controller as it is,
    whatever it was built with. *)
Theorem apply_strategy_without_tree (targets : list target) (w : walls)
        (params : list (string * Q)) :
  apply_strategy (init targets w params)
  = (Raise AttributeError, init targets w params).
Proof.
  unfold apply_strategy. unfold bind at 1.
  unfold tie_down_trunk. unfold bind at 1. cbn [get_self init
    next_trunk_target trunk_targets].
  destruct targets as [|tgt targets]; cbn [List.length Nat.ltb Nat.leb negb].
  - reflexivity.
  - reflexivity.
Qed.

(** X15.  Without exactly one generation-0 branch, a trunk tie-down with a
    target still to tie, and the leader examination in any case, raise
    [AssertionError] and change nothing. *)
Theorem no_unique_trunk_raises (self : UFOPruningStrategy)
        (t : LStringGraphDual) :
  tree self = Some t ->
  List.length (search_branches t 0) <> 1%nat ->
  examine_leaders self = (Raise AssertionError, self)
  /\ ((next_trunk_target self < List.length (trunk_targets self))%nat ->
      tie_down_trunk self = (Raise AssertionError, self)).
Proof.
  intros Ht Hlen.
  assert (Hsearch : search_unique 0 self = (Raise AssertionError, self)).
  { unfold search_unique, the_tree, bind, get_self. rewrite Ht.
    cbn [found ret].
    destruct (search_branches t 0) as [|b [|b' rest]];
      [reflexivity | exfalso; apply Hlen; reflexivity | reflexivity]. }
  split.
  - unfold examine_leaders. unfold bind at 1. rewrite Hsearch. reflexivity.
  - intros Hlt. unfold tie_down_trunk. unfold bind at 1. cbn [get_self].
    apply Nat.ltb_lt in Hlt. rewrite Hlt. cbn [negb].
    unfold bind at 1.
    destruct (nth_error (trunk_targets self) (next_trunk_target self))
      as [tgt|] eqn:Etgt.
    2:{ apply nth_error_None in Etgt. apply Nat.ltb_lt in Hlt. lia. }
    cbn [found ret]. unfold bind at 1. unfold untied_tail.
    unfold bind at 1. rewrite Hsearch. reflexivity.
Qed.

End LeaderMethods.

(** ** Slices, sums and indices *)

Module ListExtras.
Import Tree Trunk Leaders.

Lemma adjacent_length {A : Type} (xs : list A) :
  List.length (adjacent xs) = (List.length xs - 1)%nat.
Proof.
  induction xs as [|x xs IH]; [reflexivity|].
  destruct xs as [|y xs]; [reflexivity|].
  rewrite adjacent_cons2. cbn [List.length] in *. rewrite IH. lia.
Qed.

Lemma adjacent_snoc {A : Type} (front : list A) (a b : A) :
  adjacent (front ++ [a; b]) = adjacent (front ++ [a]) ++ [(a, b)].
Proof.
  induction front as [|x front IH]; [reflexivity|].
  destruct front as [|y front].
  - reflexivity.
  - change ((x :: y :: front) ++ [a; b]) with (x :: y :: (front ++ [a; b])).
    change ((x :: y :: front) ++ [a]) with (x :: y :: (front ++ [a])).
    rewrite !adjacent_cons2.
    change (y :: front ++ [a; b]) with ((y :: front) ++ [a; b]).
    change (y :: front ++ [a]) with ((y :: front) ++ [a]).
    rewrite IH. reflexivity.
Qed.

Lemma cumsum_from_length (acc : Q) (xs : list Q) :
  List.length (cumsum_from acc xs) = List.length xs.
Proof.
  revert acc. induction xs as [|x xs IH]; intros acc; [reflexivity|].
  cbn. rewrite IH. reflexivity.
Qed.

Lemma cumsum_length (xs : list Q) :
  List.length (cumsum xs) = List.length xs.
Proof.
  destruct xs as [|x xs]; [reflexivity|].
  cbn. rewrite cumsum_from_length. reflexivity.
Qed.

Lemma flatten_length (vs : list vec) :
  List.length (flatten vs) = (3 * List.length vs)%nat.
Proof.
  induction vs as [|[[x y] z] vs IH]; [reflexivity|].
  unfold flatten in *. cbn [flat_map]. rewrite length_app, IH.
  cbn [List.length]. lia.
Qed.

(** X16.  [cum_dists] has three entries for every internode of the trunk,
    not one: the difference vectors are summed up coordinate by
    coordinate along the flattened array. *)
Theorem cum_dists_of_length (pts : list vec) :
  List.length (cum_dists_of pts) = (3 * (List.length pts - 1))%nat.
Proof.
  unfold cum_dists_of.
  rewrite cumsum_length, flatten_length, length_map, adjacent_length.
  reflexivity.
Qed.

Lemma skipn_combine {A B : Type} (n : nat) :
  forall (a : list A) (b : list B),
    skipn n (combine a b) = combine (skipn n a) (skipn n b).
Proof.
  induction n as [|n IH]; intros a b; [reflexivity|].
  destruct a as [|x a]; [reflexivity|].
  destruct b as [|y b]; [cbn; destruct (skipn n a); reflexivity|].
  cbn. apply IH.
Qed.

Lemma combine_snoc {A B : Type} (a : list A) (x : A) :
  forall (b : list B) (y : B),
    List.length a = List.length b ->
    combine (a ++ [x]) (b ++ [y]) = combine a b ++ [(x, y)].
Proof.
  induction a as [|a0 a IH]; intros [|b0 b] y Hlen; try discriminate.
  - reflexivity.
  - cbn. rewrite IH by (cbn in Hlen; lia). reflexivity.
Qed.

Lemma rev_combine {A B : Type} (a : list A) :
  forall (b : list B),
    List.length a = List.length b ->
    rev (combine a b) = combine (rev a) (rev b).
Proof.
  induction a as [|x a IH]; intros [|y b] Hlen; try discriminate.
  - reflexivity.
  - cbn [combine rev]. rewrite IH by (cbn in Hlen; lia).
    symmetry. apply combine_snoc. rewrite !length_rev. cbn in Hlen. lia.
Qed.

Lemma removelast_length {A : Type} (xs : list A) :
  List.length (removelast xs) = (List.length xs - 1)%nat.
Proof.
  induction xs as [|x xs IH]; [reflexivity|].
  destruct xs as [|y xs]; [reflexivity|].
  change (removelast (x :: y :: xs)) with (x :: removelast (y :: xs)).
  cbn [List.length] in *. rewrite IH. lia.
Qed.

(** X17.  The tie scan of a leader goes over its edges from the tip
    towards the trunk and stops short of the two edges next to the trunk:
    it visits the consecutive node pairs from the third on, in reverse. *)
Theorem tip_to_base_edges_scanned (nodes : list node) :
  tip_to_base_edges nodes = rev (skipn 2 (adjacent nodes)).
Proof.
  unfold tip_to_base_edges, adjacent.
  rewrite skipn_combine.
  assert (Htl : skipn 2 (tl nodes) = skipn 3 nodes)
    by (destruct nodes; reflexivity).
  rewrite Htl. symmetry. apply rev_combine.
  rewrite !length_skipn, removelast_length. lia.
Qed.

Lemma first_index_bound {A : Type} (f : A -> bool) (xs : list A) (i : nat) :
  first_index f xs = Some i -> (i < List.length xs)%nat.
Proof.
  revert i. induction xs as [|x xs IH]; intros i H; [discriminate|].
  cbn [first_index] in H. destruct (f x).
  - injection H as <-. cbn. lia.
  - destruct (first_index f xs) as [j|]; [|discriminate].
    injection H as <-. specialize (IH j eq_refl). cbn. lia.
Qed.

(** X18.  On a tail of at least two nodes with one cumulative length per
    internode, the fold index lies between 1 and the index of the last
    tail node, so the guide is set on at least the first two tail nodes
    and on no more than the tail. *)
Theorem tie_down_node_idx_bounds (cumul_lens : list Q) (curve_len : Q)
        (nodes : list node) :
  (2 <= List.length nodes)%nat ->
  List.length cumul_lens = (List.length nodes - 1)%nat ->
  (1 <= tie_down_node_idx cumul_lens curve_len nodes
   <= Z.of_nat (List.length nodes) - 1)%Z
  /\ (2 <= List.length
             (py_prefix nodes
                (tie_down_node_idx cumul_lens curve_len nodes + 1))
      <= List.length nodes)%nat.
Proof.
  intros Hn Hc.
  assert (Hidx : (1 <= tie_down_node_idx cumul_lens curve_len nodes
                  <= Z.of_nat (List.length nodes) - 1)%Z).
  { unfold tie_down_node_idx, argmax_gt, py_or.
    destruct (first_index (fun x => Qltb curve_len x) cumul_lens)
      as [i|] eqn:E.
    - apply first_index_bound in E.
      destruct (Z.eqb_spec (Z.of_nat i) 0); lia.
    - cbn [Z.eqb]. lia. }
  split; [exact Hidx|].
  unfold py_prefix.
  destruct (Z.leb_spec 0 (tie_down_node_idx cumul_lens curve_len nodes + 1));
    [|lia].
  rewrite length_firstn. lia.
Qed.

End ListExtras.

(** ** The scan for the last tied internode *)

Module TieScan.
Import Tree Trunk Leaders ListExtras.

(** What the scan for the last tied internode returns, for any start of
    the count. *)
Lemma last_tie_scan_from (t : LStringGraphDual) :
  forall pairs idx last_tie_idx k,
    last_tie_scan t pairs idx last_tie_idx = Ret k ->
    (k = last_tie_idx
     /\ forall j e d, nth_error pairs j = Some e ->
                      edge_lookup t e = Some d -> tied_flag d = false)
    \/ exists j e d,
        k = (idx + j + 1)%nat
        /\ nth_error pairs j = Some e
        /\ edge_lookup t e = Some d /\ tied_flag d = true
        /\ forall j' e' d', (j < j')%nat -> nth_error pairs j' = Some e' ->
                            edge_lookup t e' = Some d' -> tied_flag d' = false.
Proof.
  induction pairs as [|e pairs IH]; intros idx lt k Hrun.
  - cbn in Hrun. injection Hrun as <-. left. split; [reflexivity|].
    intros [|j] ? ? [=].
  - cbn [last_tie_scan] in Hrun.
    destruct (edge_lookup t e) as [d|] eqn:Ee; [|discriminate].
    destruct (IH _ _ _ Hrun) as [[Hk Hnone] | (j & e' & d' & Hk & Hj & He' & Hf & Hlater)].
    + destruct (tied_flag d) eqn:Ef.
      * right. exists O, e, d. split; [lia|]. split; [reflexivity|].
        split; [exact Ee|]. split; [exact Ef|].
        intros [|j'] e' d' Hlt Hn He' ; [lia|]. eapply Hnone; eassumption.
      * left. split; [exact Hk|].
        intros [|j] e' d' Hn He'.
        -- injection Hn as <-. congruence.
        -- eapply Hnone; eassumption.
    + right. exists (S j), e', d'. split; [lia|]. split; [exact Hj|].
      split; [exact He'|]. split; [exact Hf|].
      intros [|j'] e'' d'' Hlt Hn He''; [lia|].
      eapply (Hlater j'); [lia | eassumption | eassumption].
Qed.

(** X19.  When the scan over the trunk's internodes returns [k], then [k]
    is at most the number of internodes, every internode from index [k] on
    is without the tied flag, and either [k] is 0 or internode [k - 1]
    carries the flag: [k] is the node index just past the last tied
    internode. *)
Theorem last_tie_scan_last_tied (t : LStringGraphDual)
        (pairs : list (node * node)) (k : nat) :
  last_tie_scan t pairs 0 0 = Ret k ->
  (k <= List.length pairs)%nat
  /\ (forall j e d, (k <= j)%nat -> nth_error pairs j = Some e ->
                    edge_lookup t e = Some d -> tied_flag d = false)
  /\ (k = 0%nat
      \/ exists e d, nth_error pairs (k - 1) = Some e
                     /\ edge_lookup t e = Some d /\ tied_flag d = true).
Proof.
  intros Hrun.
  destruct (last_tie_scan_from t pairs 0 0 k Hrun)
    as [[-> Hnone] | (j & e & d & -> & Hj & He & Hf & Hlater)].
  - split; [lia|]. split; [|left; reflexivity].
    intros j e d _. apply Hnone.
  - split.
    + assert (j < List.length pairs)%nat
        by (apply nth_error_Some; congruence). lia.
    + split.
      * intros j' e' d' Hle. apply Hlater. lia.
      * right. exists e, d. replace (0 + j + 1 - 1)%nat with j by lia. auto.
Qed.

(** With every internode in the graph and the last one tied, the scan
    returns the index of the last node. *)
Lemma last_tie_scan_last_flagged (t : LStringGraphDual) (e : node * node)
      (d : EdgeData) :
  edge_lookup t e = Some d -> tied_flag d = true ->
  forall pairs idx last_tie_idx,
    (forall e', In e' pairs -> edge_lookup t e' <> None) ->
    last_tie_scan t (pairs ++ [e]) idx last_tie_idx
    = Ret (idx + List.length pairs + 1)%nat.
Proof.
  intros He Hf. induction pairs as [|e0 pairs IH]; intros idx lt Hall.
  - cbn. rewrite He, Hf. f_equal. lia.
  - cbn [app last_tie_scan].
    destruct (edge_lookup t e0) as [d0|] eqn:E0.
    + rewrite IH by (intros e' He'; apply Hall; right; exact He').
      f_equal. cbn [List.length]. lia.
    + exfalso. apply (Hall e0); [left; reflexivity | exact E0].
Qed.

End TieScan.

Section TrunkMethods.
Context `{ext : Collaborators}.
Import Tree Trunk Leaders ListExtras TieScan.

Lemma offsets_short (pts : list vec) :
  (List.length pts <= 1)%nat -> cumsum (offsets_of pts) = [].
Proof.
  intros H. destruct pts as [|p [|q pts]]; [reflexivity | reflexivity|].
  cbn in H. lia.
Qed.

(** With a target still to tie, a trunk tail of a single point makes
    [tie_down_trunk] raise [IndexError] and change nothing: there is no
    last cumulative length to read. *)
Lemma tie_down_trunk_short_tail (self : UFOPruningStrategy)
        (nodes : list node) (pts : list vec) :
  (next_trunk_target self < List.length (trunk_targets self))%nat ->
  fst (untied_tail self) = Ret (nodes, pts) ->
  (List.length pts <= 1)%nat ->
  tie_down_trunk self = (Raise IndexError, self).
Proof.
  intros Hlt Htail Hpts.
  unfold tie_down_trunk. unfold bind at 1. cbn [get_self].
  pose proof Hlt as Hlt'. apply Nat.ltb_lt in Hlt'. rewrite Hlt'.
  cbn [negb]. unfold bind at 1.
  destruct (nth_error (trunk_targets self) (next_trunk_target self))
    as [tgt|] eqn:Etgt.
  2:{ apply nth_error_None in Etgt. lia. }
  cbn [found ret]. unfold bind at 1.
  pose proof (pure_untied_tail self) as Hpure.
  destruct (untied_tail self) as [[tail|e] s']; cbn [fst snd] in *;
    subst s'; [|discriminate].
  injection Htail as ->.
  unfold bind at 1. unfold tail_length.
  rewrite (offsets_short pts Hpts). reflexivity.
Qed.

(** X20.  When the last internode of the trunk carries the tied flag (all
    internodes being in the graph and the points matching the nodes),
    the untied tail is the last node alone, and with a target still to
    tie [tie_down_trunk] raises [IndexError] and changes nothing. *)
Theorem tie_down_trunk_last_internode_tied (self : UFOPruningStrategy)
        (t : LStringGraphDual) (root_branch : branch_id) (br : Branch)
        (front : list node) (n1 n2 : node) (d : EdgeData) :
  tree self = Some t ->
  search_branches t 0 = [root_branch] ->
  branch_lookup t root_branch = Some br ->
  nodes br = front ++ [n1; n2] ->
  List.length (points br) = List.length (nodes br) ->
  (forall e, In e (adjacent (nodes br)) -> edge_lookup t e <> None) ->
  edge_lookup t (n1, n2) = Some d ->
  tied_flag d = true ->
  (next_trunk_target self < List.length (trunk_targets self))%nat ->
  fst (untied_tail self) = Ret ([n2], skipn (List.length front + 1) (points br))
  /\ tie_down_trunk self = (Raise IndexError, self).
Proof.
  intros Ht Hroot Hbr Hnodes Hpts Hall He Hf Hlt.
  assert (Htail : untied_tail self
                  = (Ret ([n2], skipn (List.length front + 1) (points br)),
                     self)).
  { unfold untied_tail. unfold bind at 1.
    assert (Hsearch : search_unique 0 self = (Ret root_branch, self)).
    { unfold search_unique, the_tree, bind, get_self. rewrite Ht.
      cbn [found ret]. rewrite Hroot. reflexivity. }
    rewrite Hsearch. unfold bind at 1.
    assert (Hbranch : the_branch root_branch self = (Ret br, self)).
    { unfold the_branch, the_tree, bind, get_self. rewrite Ht.
      cbn [found ret]. rewrite Hbr. reflexivity. }
    rewrite Hbranch. unfold bind at 1.
    assert (Htree : the_tree self = (Ret t, self)).
    { unfold the_tree, bind, get_self. rewrite Ht. reflexivity. }
    rewrite Htree. unfold bind, lift.
    rewrite Hnodes in *. rewrite adjacent_snoc in *.
    rewrite (last_tie_scan_last_flagged t (n1, n2) d He Hf).
    2:{ intros e' He'. apply Hall. apply in_or_app. left. exact He'. }
    cbn [ret]. rewrite adjacent_length, length_app. cbn [List.length].
    replace (0 + (List.length front + 1 - 1) + 1)%nat
      with (List.length front + 1)%nat by lia.
    f_equal. f_equal. f_equal.
    replace (front ++ [n1; n2]) with ((front ++ [n1]) ++ [n2])
      by (rewrite <- app_assoc; reflexivity).
    rewrite skipn_app, length_app. cbn [List.length].
    rewrite skipn_all2 by (rewrite length_app; cbn; lia).
    replace (List.length front + 1 - (List.length front + 1))%nat with O by lia.
    reflexivity. }
  split; [rewrite Htail; reflexivity|].
  apply (tie_down_trunk_short_tail self [n2]
           (skipn (List.length front + 1) (points br)) Hlt).
  - rewrite Htail. reflexivity.
  - rewrite length_skipn, Hpts, Hnodes, length_app. cbn [List.length]. lia.
Qed.

End TrunkMethods.

(** ** The success path of [tie_down_trunk] *)

Section TieDown.
Context `{ext : Collaborators}.
Import Tree Trunk Leaders.

(** X21.  The success path of [tie_down_trunk].  With a target to tie, a
    tail of positive length that is longer than the distance to the target
    plus the distance from the tail's start to the target point, and a
    fit that converges, the call returns with the guide set on the tail
    nodes up to the fold index and with [next_trunk_target] advanced by
    one; nothing else changes. *)
Theorem tie_down_trunk_ties (self : UFOPruningStrategy)
        (t : LStringGraphDual) (tgt : target)
        (nodes : list node) (pts : list vec) (length dist_to_target : Q)
        (target_pt pts0 p : vec) (n0 : node) (fit : bezier) :
  tree self = Some t ->
  nth_error (trunk_targets self) (next_trunk_target self) = Some tgt ->
  fst (untied_tail self) = Ret (nodes, pts) ->
  nth_error (cumsum (offsets_of pts))
            (List.length (cumsum (offsets_of pts)) - 1) = Some length ->
  0 < length ->
  get_point_sequence_dist tgt pts = (dist_to_target, target_pt) ->
  nth_error pts 0 = Some pts0 ->
  dist_to_target + norm (vsub target_pt pts0) < length ->
  nth_error nodes 0 = Some n0 ->
  nth_error pts (if Z.eqb n0 0 then 2 else 1)%nat = Some p ->
  run_cubic_bezier_strain_opt pts0 target_pt (vsub p pts0) 1 = (fit, true) ->
  tie_down_trunk self
  = (Ret tt,
     mkStrategy (trunk_targets self) (wire_walls self) (params self)
       (Some (set_guide_on_nodes t
                (py_prefix nodes
                   (tie_down_node_idx (cumsum (offsets_of pts))
                      (qsum (offsets_of (CubicBezier_eval fit))) nodes + 1))
                (CubicBezier_eval fit) "GlobalGuide"))
       (S (next_trunk_target self)) (leaders_assigned self)).
Proof.
  intros Ht Htgt Htail Hlen Hpos Hdist Hp0 Hslack Hn0 Hp Hfit.
  unfold tie_down_trunk. unfold bind at 1. cbn [get_self].
  assert (Hlt : (next_trunk_target self
                 < List.length (trunk_targets self))%nat)
    by (apply nth_error_Some; congruence).
  apply Nat.ltb_lt in Hlt. rewrite Hlt. cbn [negb].
  unfold bind at 1. rewrite Htgt. cbn [found ret].
  unfold bind at 1.
  pose proof (pure_untied_tail self) as Hpure.
  destruct (untied_tail self) as [[tail|e] s']; cbn [fst snd] in *;
    subst s'; [|discriminate].
  injection Htail as ->.
  unfold bind at 1. unfold tail_length. rewrite Hlen. cbn [found ret].
  apply Qltb_lt in Hpos. rewrite Hpos. rewrite Hdist.
  unfold bind at 1. rewrite Hp0. cbn [found ret].
  apply Qltb_lt in Hslack. rewrite Hslack.
  unfold bind at 1. rewrite Hn0. cbn [found ret].
  unfold bind at 1. rewrite Hp. cbn [found ret].
  rewrite Hfit. unfold bind, mutate_tree, advance_trunk_target.
  rewrite Ht. reflexivity.
Qed.

Lemma tie_down_trunk_advance_result (self : UFOPruningStrategy)
      (res : outcome unit * UFOPruningStrategy) :
  tie_down_trunk self = res ->
  next_trunk_target (snd res) <> next_trunk_target self ->
  exists tgt nodes pts length pts0 n0 p fit,
    nth_error (trunk_targets self) (next_trunk_target self) = Some tgt
    /\ fst (untied_tail self) = Ret (nodes, pts)
    /\ nth_error (cumsum (offsets_of pts))
                 (List.length (cumsum (offsets_of pts)) - 1) = Some length
    /\ 0 < length
    /\ nth_error pts 0 = Some pts0
    /\ fst (get_point_sequence_dist tgt pts)
       + norm (vsub (snd (get_point_sequence_dist tgt pts)) pts0) < length
    /\ nth_error nodes 0 = Some n0
    /\ nth_error pts (if Z.eqb n0 0 then 2 else 1)%nat = Some p
    /\ run_cubic_bezier_strain_opt pts0
         (snd (get_point_sequence_dist tgt pts)) (vsub p pts0) 1
       = (fit, true)
    /\ next_trunk_target (snd res) = S (next_trunk_target self).
Proof.
  intros Hres Hadv. unfold tie_down_trunk in Hres.
  unfold bind at 1 in Hres. cbn [get_self] in Hres.
  destruct (Nat.ltb_spec (next_trunk_target self)
              (List.length (trunk_targets self))) as [Hlt | Hge];
    cbn [negb] in Hres; [|subst res; exfalso; apply Hadv; reflexivity].
  unfold bind at 1 in Hres.
  destruct (nth_error (trunk_targets self) (next_trunk_target self))
    as [tgt|] eqn:Etgt; cbn [found ret raise] in Hres;
    [|subst res; exfalso; apply Hadv; reflexivity].
  unfold bind at 1 in Hres.
  pose proof (pure_untied_tail self) as Hpure.
  destruct (untied_tail self) as [[[nodes pts]|e] s'] eqn:Etail;
    cbn [snd] in Hpure; subst s';
    [|subst res; exfalso; apply Hadv; reflexivity].
  unfold bind at 1 in Hres. unfold tail_length in Hres.
  destruct (nth_error (cumsum (offsets_of pts)) _) as [length|] eqn:Elen;
    cbn [found ret raise] in Hres;
    [|subst res; exfalso; apply Hadv; reflexivity].
  cmp_cases 0 length; [|subst res; exfalso; apply Hadv; reflexivity].
  destruct (get_point_sequence_dist tgt pts)
    as [dist_to_target target_pt] eqn:Edist.
  unfold bind at 1 in Hres.
  destruct (nth_error pts 0) as [pts0|] eqn:Ep0;
    cbn [found ret raise] in Hres;
    [|subst res; exfalso; apply Hadv; reflexivity].
  cmp_cases (dist_to_target + norm (vsub target_pt pts0)) length;
    [|subst res; exfalso; apply Hadv; reflexivity].
  unfold bind at 1 in Hres.
  destruct (nth_error nodes 0) as [n0|] eqn:En0;
    cbn [found ret raise] in Hres;
    [|subst res; exfalso; apply Hadv; reflexivity].
  unfold bind at 1 in Hres.
  destruct (nth_error pts (if Z.eqb n0 0 then 2 else 1)%nat) as [p|] eqn:Ep;
    cbn [found ret raise] in Hres;
    [|subst res; exfalso; apply Hadv; reflexivity].
  destruct (run_cubic_bezier_strain_opt pts0 target_pt (vsub p pts0) 1)
    as [fit success] eqn:Efit.
  destruct success; [|subst res; exfalso; apply Hadv; reflexivity].
  unfold bind, mutate_tree, advance_trunk_target in Hres.
  destruct (tree self) as [t|] eqn:Et;
    [|subst res; exfalso; apply Hadv; reflexivity].
  cbn in Hres. subst res.
  exists tgt, nodes, pts, length, pts0, n0, p, fit.
  rewrite Edist. cbn [fst snd next_trunk_target].
  repeat (split; [first [assumption | reflexivity]|]). reflexivity.
Qed.

(** X22.  [next_trunk_target] moves only on the success path: if a call
    of [tie_down_trunk] changes it, then there was a target to tie, the
    untied tail had positive length and more length than the distance to
    the target plus the distance from its start to the target point, the
    curve fit converged, and the index went up by exactly one. *)
Theorem tie_down_trunk_advance_needs (self : UFOPruningStrategy) :
  next_trunk_target (snd (tie_down_trunk self)) <> next_trunk_target self ->
  exists tgt nodes pts length pts0 n0 p fit,
    nth_error (trunk_targets self) (next_trunk_target self) = Some tgt
    /\ fst (untied_tail self) = Ret (nodes, pts)
    /\ nth_error (cumsum (offsets_of pts))
                 (List.length (cumsum (offsets_of pts)) - 1) = Some length
    /\ 0 < length
    /\ nth_error pts 0 = Some pts0
    /\ fst (get_point_sequence_dist tgt pts)
       + norm (vsub (snd (get_point_sequence_dist tgt pts)) pts0) < length
    /\ nth_error nodes 0 = Some n0
    /\ nth_error pts (if Z.eqb n0 0 then 2 else 1)%nat = Some p
    /\ run_cubic_bezier_strain_opt pts0
         (snd (get_point_sequence_dist tgt pts)) (vsub p pts0) 1
       = (fit, true)
    /\ next_trunk_target (snd (tie_down_trunk self))
       = S (next_trunk_target self).
Proof. apply tie_down_trunk_advance_result. reflexivity. Qed.

End TieDown.

(** ** Instances of the further properties on concrete inputs *)

Module ExtraWitnesses.
Import Tree Trunk Leaders Vocabulary Examples MoreExamples.
Import QueryExtras GreedyExtras RegistryExtras ListExtras TieScan.



Lemma greedy_loop_append_only_witness :
  greedy_loop [] 5 (9 # 10) []
    [(3%Z, 76 # 10); (4%Z, 63 # 10); (5%Z, 12)] one_wall
  = Ret [(0%Z, packed_wall)]
  /\ exists l added,
      table_find 0 [(0%Z, packed_wall)] = Some l
      /\ Permutation l ([6; 9] ++ added)
      /\ forall x, In x added ->
           exists c, In c [(3%Z, 76 # 10); (4%Z, 63 # 10); (5%Z, 12)]
                     /\ snd c = x /\ passed_over [] [] c = false.
Proof.
  assert (H : greedy_loop [] 5 (9 # 10) []
                [(3%Z, 76 # 10); (4%Z, 63 # 10); (5%Z, 12)] one_wall
              = Ret [(0%Z, packed_wall)]) by (vm_compute; reflexivity).
  split; [exact H|].
  apply (proj2 (greedy_loop_append_only _ _ _ _ _ _ _ H) 0%Z [6; 9]).
  reflexivity.
Defined.

Lemma one_wall_spaced :
  forall wid l, table_find wid one_wall = Some l ->
                sortedb l = true /\ spaced (9 # 10) l.
Proof.
  intros wid l H. unfold one_wall in H.
  rewrite DictFacts.table_find_cons in H.
  destruct (Z.eqb 0 wid); [|discriminate]. injection H as <-.
  split; [reflexivity|]. cbn [spaced]. split; [|split; [intros v []|exact I]].
  intros v [<- | []]. vm_compute. discriminate.
Defined.

Lemma greedy_loop_keeps_spacing_witness :
  NoDup (map fst one_wall)
  /\ (forall wid l, table_find wid one_wall = Some l ->
                    sortedb l = true /\ spaced (9 # 10) l)
  /\ greedy_loop [] 5 (9 # 10) []
       [(3%Z, 76 # 10); (4%Z, 63 # 10); (5%Z, 12)] one_wall
     = Ret [(0%Z, packed_wall)]
  /\ sortedb packed_wall = true /\ spaced (9 # 10) packed_wall.
Proof.
  assert (H : greedy_loop [] 5 (9 # 10) []
                [(3%Z, 76 # 10); (4%Z, 63 # 10); (5%Z, 12)] one_wall
              = Ret [(0%Z, packed_wall)]) by (vm_compute; reflexivity).
  split; [exact Witnesses.one_wall_keys|]. split; [exact one_wall_spaced|].
  split; [exact H|].
  apply (greedy_loop_keeps_spacing _ _ _ _ _ _ _ Witnesses.one_wall_keys
           one_wall_spaced H 0%Z packed_wall).
  reflexivity.
Defined.


Lemma leader_examination_changes_nothing_witness :
  fst (examine_leaders full_controller) = Ret tt
  /\ (exists n, wire_walls full_controller = WallCount n)
  /\ snd (examine_leaders full_controller) = full_controller.
Proof.
  assert (H : fst (examine_leaders full_controller) = Ret tt) by reflexivity.
  split; [exact H|].
  exact (proj2 (leader_examination_changes_nothing full_controller) H).
Defined.

Lemma apply_strategy_effect_witness :
  fst (apply_strategy young_controller) = Ret tt
  /\ fst (tie_down_trunk young_controller) = Ret tt
  /\ snd (apply_strategy young_controller)
     = snd (tie_down_trunk young_controller).
Proof.
  assert (H : fst (apply_strategy young_controller) = Ret tt)
    by (vm_compute; reflexivity).
  split; [exact H|]. exact (apply_strategy_effect young_controller H).
Defined.

Lemma assign_leaders_mapping_raises_witness :
  wire_walls trained_controller
  = WallMap (ext := straight_line)
      [(0%Z, [near_target]); (1%Z, [near_target])]
  /\ exists e, fst (assign_leaders trained_controller) = Raise e.
Proof.
  split; [reflexivity|].
  apply (assign_leaders_mapping_raises (ext := straight_line)
           trained_controller
           [(0%Z, [near_target]); (1%Z, [near_target])]).
  reflexivity.
Defined.

Lemma manage_tied_branch_returns_witness :
  fst (manage_tied_branch [23%Z] 0 0 trained_controller) = Ret tt
  /\ exists (m : list (Z * list (@target straight_line))) wall t,
      wire_walls trained_controller = WallMap m
      /\ option_map snd (find (fun kv => Z.eqb (fst kv) 0) m) = Some wall
      /\ 0%Z = (Z.of_nat (List.length wall) - 1)%Z
      /\ tree trained_controller = Some t
      /\ snd (manage_tied_branch [23%Z] 0 0 trained_controller)
         = mkStrategy (trunk_targets trained_controller)
             (wire_walls trained_controller) (params trained_controller)
             (Some (@stub_branch straight_line t [23%Z]
                      (params_get (params trained_controller)
                         "leader_excess_stub" (5 # 2))))
             (next_trunk_target trained_controller)
             (leaders_assigned trained_controller).
Proof.
  assert (H : fst (manage_tied_branch [23%Z] 0 0 trained_controller) = Ret tt)
    by reflexivity.
  split; [exact H|].
  exact (manage_tied_branch_returns [23%Z] 0 0 trained_controller H).
Defined.

Lemma search_new_leaders_registered_raises_witness :
  tree full_controller = Some full_tree
  /\ search_branches full_tree 0 = [0%Z]
  /\ forallb empty_entry [(0%Z, RList [1%Z])] = false
  /\ search_new_leaders [(0%Z, RList [1%Z])] full_controller
     = (Raise TypeError, full_controller).
Proof.
  split; [reflexivity|]. split; [reflexivity|]. split; [reflexivity|].
  exact (search_new_leaders_registered_raises full_controller full_tree 0%Z
           [(0%Z, RList [1%Z])] eq_refl eq_refl eq_refl).
Defined.

Lemma no_unique_trunk_raises_witness :
  tree bare_ground_controller = Some bare_ground
  /\ List.length (search_branches bare_ground 0) <> 1%nat
  /\ examine_leaders bare_ground_controller
     = (Raise AssertionError, bare_ground_controller)
  /\ tie_down_trunk bare_ground_controller
     = (Raise AssertionError, bare_ground_controller).
Proof.
  assert (H : List.length (search_branches bare_ground 0) <> 1%nat)
    by (cbn; lia).
  split; [reflexivity|]. split; [exact H|].
  destruct (no_unique_trunk_raises bare_ground_controller bare_ground
              eq_refl H) as [He Ht].
  split; [exact He|]. apply Ht. cbn. lia.
Defined.

Lemma tie_down_node_idx_bounds_witness :
  (2 <= List.length [0; 1; 2]%Z)%nat
  /\ List.length two_lengths = (List.length [0; 1; 2]%Z - 1)%nat
  /\ (1 <= tie_down_node_idx two_lengths 7 [0; 1; 2]%Z
      <= Z.of_nat (List.length [0; 1; 2]%Z) - 1)%Z.
Proof.
  assert (H1 : (2 <= List.length [0; 1; 2]%Z)%nat) by (cbn; lia).
  assert (H2 : List.length two_lengths = (List.length [0; 1; 2]%Z - 1)%nat)
    by reflexivity.
  split; [exact H1|]. split; [exact H2|].
  exact (proj1 (tie_down_node_idx_bounds two_lengths 7 [0; 1; 2]%Z H1 H2)).
Defined.

Lemma last_tie_scan_last_tied_witness :
  last_tie_scan tied_trunk_tree (adjacent [0; 1; 2]%Z) 0 0 = Ret 2%nat
  /\ (2 <= List.length (adjacent [0; 1; 2]%Z))%nat
  /\ exists e d, nth_error (adjacent [0; 1; 2]%Z) (2 - 1) = Some e
                 /\ edge_lookup tied_trunk_tree e = Some d
                 /\ tied_flag d = true.
Proof.
  assert (H : last_tie_scan tied_trunk_tree (adjacent [0; 1; 2]%Z) 0 0
              = Ret 2%nat) by reflexivity.
  split; [exact H|].
  destruct (last_tie_scan_last_tied tied_trunk_tree _ _ H)
    as (Hle & _ & [Hz | Hflag]).
  - discriminate Hz.
  - split; [exact Hle | exact Hflag].
Defined.

Lemma tie_down_trunk_last_internode_tied_witness :
  tree tied_trunk_controller = Some tied_trunk_tree
  /\ search_branches tied_trunk_tree 0 = [0%Z]
  /\ branch_lookup tied_trunk_tree 0%Z = Some trunk3
  /\ nodes trunk3 = [0%Z] ++ [1%Z; 2%Z]
  /\ List.length (points trunk3) = List.length (nodes trunk3)
  /\ (forall e, In e (adjacent (nodes trunk3)) ->
                edge_lookup tied_trunk_tree e <> None)
  /\ edge_lookup tied_trunk_tree (1%Z, 2%Z)
     = Some (mkEdge None (Some [("Flags"%string, [1%Z])]))
  /\ tied_flag (mkEdge None (Some [("Flags"%string, [1%Z])])) = true
  /\ (next_trunk_target tied_trunk_controller
      < List.length (trunk_targets tied_trunk_controller))%nat
  /\ tie_down_trunk tied_trunk_controller
     = (Raise IndexError, tied_trunk_controller).
Proof.
  assert (H6 : forall e, In e (adjacent (nodes trunk3)) ->
                         edge_lookup tied_trunk_tree e <> None).
  { intros e [<- | [<- | []]]; discriminate. }
  assert (H9 : (next_trunk_target tied_trunk_controller
                < List.length (trunk_targets tied_trunk_controller))%nat)
    by (cbn; lia).
  repeat (split; [first [reflexivity | assumption]|]).
  exact (proj2 (tie_down_trunk_last_internode_tied tied_trunk_controller
                  tied_trunk_tree 0%Z trunk3 [0%Z] 1%Z 2%Z
                  (mkEdge None (Some [("Flags"%string, [1%Z])]))
                  eq_refl eq_refl eq_refl eq_refl eq_refl H6 eq_refl eq_refl
                  H9)).
Defined.

Lemma tie_down_trunk_ties_witness :
  tree young_controller = Some young_tree
  /\ nth_error (trunk_targets young_controller)
               (next_trunk_target young_controller) = Some near_target
  /\ fst (untied_tail young_controller)
     = Ret ([0; 1; 2]%Z, [origin; (0, 0, 5); (0, 0, 10)])
  /\ 0 < 10
  /\ 0 + @norm straight_line (vsub (3, 0, 0) origin) < 10
  /\ option_map annotations (tree (snd (tie_down_trunk young_controller)))
     = Some [Guide [0; 1; 2]%Z [origin; (3, 0, 0)] "GlobalGuide"]
  /\ next_trunk_target (snd (tie_down_trunk young_controller)) = 1%nat.
Proof.
  assert (H1 : tree young_controller = Some young_tree) by reflexivity.
  assert (H2 : nth_error (trunk_targets young_controller)
                 (next_trunk_target young_controller) = Some near_target)
    by reflexivity.
  assert (H3 : fst (untied_tail young_controller)
               = Ret ([0; 1; 2]%Z, [origin; (0, 0, 5); (0, 0, 10)]))
    by reflexivity.
  assert (H5 : 0 < 10) by reflexivity.
  assert (H8 : 0 + @norm straight_line (vsub (3, 0, 0) origin) < 10)
    by reflexivity.
  repeat (split; [assumption|]).
  rewrite (tie_down_trunk_ties young_controller young_tree near_target
             [0; 1; 2]%Z [origin; (0, 0, 5); (0, 0, 10)] 10 0 (3, 0, 0)
             origin (0, 0, 10) 0%Z [origin; (3, 0, 0)]
             H1 H2 H3 eq_refl H5 eq_refl eq_refl H8 eq_refl eq_refl eq_refl).
  split; reflexivity.
Defined.

Lemma tie_down_trunk_advance_needs_witness :
  next_trunk_target (snd (tie_down_trunk young_controller))
  <> next_trunk_target young_controller
  /\ next_trunk_target (snd (tie_down_trunk young_controller))
     = S (next_trunk_target young_controller).
Proof.
  assert (H : next_trunk_target (snd (tie_down_trunk young_controller))
              <> next_trunk_target young_controller)
    by (vm_compute; discriminate).
  split; [exact H|].
  destruct (tie_down_trunk_advance_needs young_controller H)
    as (tgt & nodes & pts & length & pts0 & n0 & p & fit & Hrest).
  apply Hrest.
Defined.

End ExtraWitnesses.

(** ** [query_dist_from_line_points] on floats *)

Module Binary64Facts.
Import Stdlib.Floats.Floats Binary64.
Local Open Scope float_scope.

Lemma compare_cont_swap (m1 m2 : positive) :
  Pos.compare_cont Eq m2 m1 = CompOpp (Pos.compare_cont Eq m1 m2).
Proof. symmetry. apply (Pos.compare_cont_antisym m1 m2 Eq). Qed.

Lemma SFcompare_antisym (a b : spec_float) (c : comparison) :
  SFcompare a b = Some c -> SFcompare b a = Some (CompOpp c).
Proof.
  destruct a as [sa | sa | | sa ma ea], b as [sb | sb | | sb mb eb];
    cbn; try discriminate; intros [= <-];
    try (destruct sa); try (destruct sb); try reflexivity.
  - rewrite (Z.compare_antisym ea eb).
    destruct (Z.compare ea eb); cbn; try reflexivity.
    rewrite (compare_cont_swap ma mb). reflexivity.
  - rewrite (Z.compare_antisym ea eb).
    destruct (Z.compare ea eb); cbn; try reflexivity.
    rewrite (compare_cont_swap ma mb). reflexivity.
Qed.

Lemma not_nan_spec (x : float) : is_nan x = false -> Prim2SF x <> S754_nan.
Proof.
  unfold is_nan. rewrite eqb_spec. intros H Hn. rewrite Hn in H.
  cbn in H. discriminate.
Qed.

Lemma SFcompare_defined (a b : spec_float) :
  a <> S754_nan -> b <> S754_nan -> exists c, SFcompare a b = Some c.
Proof.
  intros Ha Hb.
  destruct a as [sa | sa | | sa ma ea], b as [sb | sb | | sb mb eb];
    try congruence; cbn; eauto.
Qed.

Lemma ltb_false_leb (x y : float) :
  is_nan x = false -> is_nan y = false ->
  (x <? y) = false -> (y <=? x) = true.
Proof.
  intros Hx Hy. rewrite ltb_spec, leb_spec. unfold SFltb, SFleb.
  destruct (SFcompare_defined _ _ (not_nan_spec x Hx) (not_nan_spec y Hy))
    as [c Hc].
  rewrite Hc, (SFcompare_antisym _ _ _ Hc).
  destruct c; cbn; congruence.
Qed.

Lemma nan_free_cons (x : float) (s : list float) :
  nan_free (x :: s) = true -> is_nan x = false /\ nan_free s = true.
Proof.
  unfold nan_free. cbn [forallb]. intros H.
  apply andb_true_iff in H. destruct H as [Hx Hs].
  apply negb_true_iff in Hx. auto.
Qed.

Lemma last_default_f64 (x d d' : float) (s : list float) :
  last (x :: s) d = last (x :: s) d'.
Proof.
  revert x. induction s as [|y s IH]; intros x; [reflexivity|].
  change (last (y :: s) d = last (y :: s) d'). apply IH.
Qed.

Lemma last_step_f64 (x y d : float) (s : list float) :
  last (x :: y :: s) d = last (y :: s) y.
Proof.
  change (last (y :: s) d = last (y :: s) y). apply last_default_f64.
Qed.

Lemma scan_pairs_f64_some (pt : float) (s : list float) :
  is_nan pt = false ->
  forall x,
    nan_free (x :: s) = true ->
    (x <=? pt) = true ->
    (last (x :: s) x <=? pt) = false ->
    exists d, scan_pairs_f64 pt (adjacent (x :: s)) = Some d.
Proof.
  intros Hpt. induction s as [|y s IH]; intros x Hfree Hx Hlast.
  - cbn in Hlast. congruence.
  - rewrite adjacent_cons2. cbn [scan_pairs_f64]. rewrite Hx. cbn [andb].
    destruct (pt <? y) eqn:E; [eauto|].
    destruct (nan_free_cons _ _ Hfree) as [_ Hfree'].
    destruct (nan_free_cons _ _ Hfree') as [Hy _].
    apply IH; [exact Hfree' | apply ltb_false_leb; assumption|].
    rewrite last_step_f64 in Hlast. exact Hlast.
Qed.

Lemma query_f64_some (pt : float) (s : list float) :
  is_nan pt = false -> nan_free s = true ->
  exists d, query_dist_from_line_points_f64 pt s = Some d.
Proof.
  intros Hpt Hfree. destruct s as [|x s]; [eexists; reflexivity|].
  unfold query_dist_from_line_points_f64.
  destruct (pt <? x) eqn:E1; [eauto|].
  destruct (last (x :: s) x <=? pt) eqn:E2; [eauto|].
  destruct (nan_free_cons _ _ Hfree) as [Hx _].
  apply scan_pairs_f64_some; try assumption.
  apply ltb_false_leb; assumption.
Qed.



(** X1.  On floats without NaN the function returns a value for every
    position and every list, sorted or not: it never runs off the end of
    its loop. *)
Theorem query_dist_from_line_points_f64_returns (pt : float)
        (s : list float) :
  is_nan pt = false -> nan_free s = true ->
  exists d, query_dist_from_line_points_f64 pt s = Some d.
Proof. apply query_f64_some. Qed.


Lemma query_dist_from_line_points_f64_returns_witness :
  is_nan 3 = false /\ nan_free [5; 2; 4] = true
  /\ exists d, query_dist_from_line_points_f64 3 [5; 2; 4] = Some d.
Proof.
  split; [reflexivity|]. split; [reflexivity|].
  apply (query_dist_from_line_points_f64_returns 3 [5; 2; 4]); reflexivity.
Defined.

End Binary64Facts.

(** ** A wall that is full through a tie *)

Module TiedWire.
Import Tree Leaders Examples MoreExamples.

(** C8.  On a plant whose trunk targets are all tied and whose single
    wall has its one leader tied, [apply_strategy] ought to return and
    change nothing.  With [wire_walls] a number it raises [TypeError];
    with [wire_walls] a mapping it stubs the tied branch and then raises
    [TypeError], and it stubs the branch again on the next call. *)
Theorem apply_strategy_raises_on_tied_wire :
  next_trunk_target tied_full_count
  = List.length (trunk_targets tied_full_count)
  /\ apply_strategy tied_full_count = (Raise TypeError, tied_full_count)
  /\ fst (apply_strategy tied_full_map) = Raise TypeError
  /\ option_map annotations (tree (snd (apply_strategy tied_full_map)))
     = Some [Stub [23%Z] (5 # 2)]
  /\ option_map annotations
       (tree (snd (apply_strategy (snd (apply_strategy tied_full_map)))))
     = Some [Stub [23%Z] (5 # 2); Stub [23%Z] (5 # 2)].
Proof. repeat split; vm_compute; reflexivity. Qed.

End TiedWire.
